(** * The bitonic sort sample: step sequencer and swap-partner predictor

    A shallow embedding of the bitonic sort sample (the file that defines
    [StepEnum], [getNumSteps], [setSwappedCell], [resetExecutionInformation]
    and the animation callback [frame]), as a state machine over the values
    its closures share: the settings object, the [elements] array,
    [highestBlockHeight] and the device buffers.

    Numbers.  Every number the sequencer handles is an integer-valued
    JavaScript number, so numbers are [Z]:
    - [Math.floor (a / b)] is [a / b] ([Z.div] rounds towards minus infinity);
    - [a % b] is [Z.rem a b] (the sign follows the dividend, as in JavaScript);
    - [Math.ceil (a / b)] is [- ((- a) / b)];
    - [x / 2] is [x / 2], exact on the even values it is applied to: on every
      state of the page the array size, the block height and the span of a
      step to execute are powers of two above one ([reachable_scheduled]);
      the statements about the predictor carry the evenness of the span
      where the half height is used;
    - [Math.log2] is [Z.log2], exact on powers of two.

    GUI controllers.  [controller.setValue v] of the GUI library stores [v] in
    the bound field of [settings] and runs the controller's [onChange]
    handler if it has one; it is modelled by the field's setter, followed by
    the handler where there is one.

    Time.  One call of [frame] on an active page, with its awaits, is one
    transition; the timer started by ['Complete Sort'] is the event
    [IntervalTick]. *)

From Stdlib Require Import ZArith List Bool Lia Permutation.
From Stdlib Require String Ascii DecimalString DecimalNat.
Import ListNotations.
Local Open Scope Z_scope.

(** ** Step types *)

Inductive StepType : Type :=
  | NONE
  | FLIP_LOCAL
  | DISPERSE_LOCAL
  | FLIP_GLOBAL
  | DISPERSE_GLOBAL.

(** The numeric enum written into the uniform buffer. *)
Definition StepEnum (t : StepType) : Z :=
  match t with
  | NONE => 0
  | FLIP_LOCAL => 1
  | DISPERSE_LOCAL => 2
  | FLIP_GLOBAL => 3
  | DISPERSE_GLOBAL => 4
  end.

(** ** The settings object *)

(** The fields of [SettingsInterface] that the sequencer and the predictor
    read or write.  The grid fields, the display mode, the sort speed and the
    formatted ['Current Step'] string only feed the display. *)
Record SettingsInterface : Type := mkSettings {
  Total_Elements : Z;
  Workgroup_Size : Z;
  Size_Limit : Z;
  Workgroups_Per_Step : Z;
  Hovered_Cell : Z;
  Swapped_Cell : Z;
  Step_Index : Z;
  Total_Steps : Z;
  Prev_Step : StepType;
  Next_Step : StepType;
  Prev_Swap_Span : Z;
  Next_Swap_Span : Z;
  executeStep : bool;
  Total_Swaps : Z
}.

Definition set_Total_Elements v (s : SettingsInterface) :=
  mkSettings v (Workgroup_Size s) (Size_Limit s) (Workgroups_Per_Step s)
    (Hovered_Cell s) (Swapped_Cell s) (Step_Index s) (Total_Steps s)
    (Prev_Step s) (Next_Step s) (Prev_Swap_Span s) (Next_Swap_Span s)
    (executeStep s) (Total_Swaps s).
Definition set_Workgroup_Size v (s : SettingsInterface) :=
  mkSettings (Total_Elements s) v (Size_Limit s) (Workgroups_Per_Step s)
    (Hovered_Cell s) (Swapped_Cell s) (Step_Index s) (Total_Steps s)
    (Prev_Step s) (Next_Step s) (Prev_Swap_Span s) (Next_Swap_Span s)
    (executeStep s) (Total_Swaps s).
Definition set_Size_Limit v (s : SettingsInterface) :=
  mkSettings (Total_Elements s) (Workgroup_Size s) v (Workgroups_Per_Step s)
    (Hovered_Cell s) (Swapped_Cell s) (Step_Index s) (Total_Steps s)
    (Prev_Step s) (Next_Step s) (Prev_Swap_Span s) (Next_Swap_Span s)
    (executeStep s) (Total_Swaps s).
Definition set_Workgroups_Per_Step v (s : SettingsInterface) :=
  mkSettings (Total_Elements s) (Workgroup_Size s) (Size_Limit s) v
    (Hovered_Cell s) (Swapped_Cell s) (Step_Index s) (Total_Steps s)
    (Prev_Step s) (Next_Step s) (Prev_Swap_Span s) (Next_Swap_Span s)
    (executeStep s) (Total_Swaps s).
Definition set_Hovered_Cell v (s : SettingsInterface) :=
  mkSettings (Total_Elements s) (Workgroup_Size s) (Size_Limit s)
    (Workgroups_Per_Step s) v (Swapped_Cell s) (Step_Index s) (Total_Steps s)
    (Prev_Step s) (Next_Step s) (Prev_Swap_Span s) (Next_Swap_Span s)
    (executeStep s) (Total_Swaps s).
Definition set_Swapped_Cell v (s : SettingsInterface) :=
  mkSettings (Total_Elements s) (Workgroup_Size s) (Size_Limit s)
    (Workgroups_Per_Step s) (Hovered_Cell s) v (Step_Index s) (Total_Steps s)
    (Prev_Step s) (Next_Step s) (Prev_Swap_Span s) (Next_Swap_Span s)
    (executeStep s) (Total_Swaps s).
Definition set_Step_Index v (s : SettingsInterface) :=
  mkSettings (Total_Elements s) (Workgroup_Size s) (Size_Limit s)
    (Workgroups_Per_Step s) (Hovered_Cell s) (Swapped_Cell s) v (Total_Steps s)
    (Prev_Step s) (Next_Step s) (Prev_Swap_Span s) (Next_Swap_Span s)
    (executeStep s) (Total_Swaps s).
Definition set_Total_Steps v (s : SettingsInterface) :=
  mkSettings (Total_Elements s) (Workgroup_Size s) (Size_Limit s)
    (Workgroups_Per_Step s) (Hovered_Cell s) (Swapped_Cell s) (Step_Index s) v
    (Prev_Step s) (Next_Step s) (Prev_Swap_Span s) (Next_Swap_Span s)
    (executeStep s) (Total_Swaps s).
Definition set_Prev_Step v (s : SettingsInterface) :=
  mkSettings (Total_Elements s) (Workgroup_Size s) (Size_Limit s)
    (Workgroups_Per_Step s) (Hovered_Cell s) (Swapped_Cell s) (Step_Index s)
    (Total_Steps s) v (Next_Step s) (Prev_Swap_Span s) (Next_Swap_Span s)
    (executeStep s) (Total_Swaps s).
Definition set_Next_Step v (s : SettingsInterface) :=
  mkSettings (Total_Elements s) (Workgroup_Size s) (Size_Limit s)
    (Workgroups_Per_Step s) (Hovered_Cell s) (Swapped_Cell s) (Step_Index s)
    (Total_Steps s) (Prev_Step s) v (Prev_Swap_Span s) (Next_Swap_Span s)
    (executeStep s) (Total_Swaps s).
Definition set_Prev_Swap_Span v (s : SettingsInterface) :=
  mkSettings (Total_Elements s) (Workgroup_Size s) (Size_Limit s)
    (Workgroups_Per_Step s) (Hovered_Cell s) (Swapped_Cell s) (Step_Index s)
    (Total_Steps s) (Prev_Step s) (Next_Step s) v (Next_Swap_Span s)
    (executeStep s) (Total_Swaps s).
Definition set_Next_Swap_Span v (s : SettingsInterface) :=
  mkSettings (Total_Elements s) (Workgroup_Size s) (Size_Limit s)
    (Workgroups_Per_Step s) (Hovered_Cell s) (Swapped_Cell s) (Step_Index s)
    (Total_Steps s) (Prev_Step s) (Next_Step s) (Prev_Swap_Span s) v
    (executeStep s) (Total_Swaps s).
Definition set_executeStep v (s : SettingsInterface) :=
  mkSettings (Total_Elements s) (Workgroup_Size s) (Size_Limit s)
    (Workgroups_Per_Step s) (Hovered_Cell s) (Swapped_Cell s) (Step_Index s)
    (Total_Steps s) (Prev_Step s) (Next_Step s) (Prev_Swap_Span s)
    (Next_Swap_Span s) v (Total_Swaps s).
Definition set_Total_Swaps v (s : SettingsInterface) :=
  mkSettings (Total_Elements s) (Workgroup_Size s) (Size_Limit s)
    (Workgroups_Per_Step s) (Hovered_Cell s) (Swapped_Cell s) (Step_Index s)
    (Total_Steps s) (Prev_Step s) (Next_Step s) (Prev_Swap_Span s)
    (Next_Swap_Span s) (executeStep s) v.

(** ** [getNumSteps] *)

Definition getNumSteps (numElements : Z) : Z :=
  let n := Z.log2 numElements in
  (n * (n + 1)) / 2.

(** ** The swap-partner predictor: [setSwappedCell] *)

(** The value the [switch] of [setSwappedCell] assigns to [swappedIndex], as a
    function of ['Next Step'], ['Next Swap Span'] and ['Hovered Cell'].  The
    ['NONE'] case falls through into [default]; ['DISPERSE_GLOBAL'] has no
    case of its own and is served by [default] too. *)
Definition swappedIndex (nextStep : StepType) (nextSwapSpan hoveredCell : Z) : Z :=
  match nextStep with
  | FLIP_LOCAL | FLIP_GLOBAL =>
      let blockHeight := nextSwapSpan in
      let p2 := hoveredCell / blockHeight + 1 in
      let p3 := Z.rem hoveredCell blockHeight in
      blockHeight * p2 - p3 - 1
  | DISPERSE_LOCAL =>
      let blockHeight := nextSwapSpan in
      let halfHeight := blockHeight / 2 in
      if Z.rem hoveredCell blockHeight <? halfHeight
      then hoveredCell + halfHeight
      else hoveredCell - halfHeight
  | NONE => hoveredCell
  | DISPERSE_GLOBAL => hoveredCell
  end.

Definition setSwappedCell (s : SettingsInterface) : SettingsInterface :=
  set_Swapped_Cell
    (swappedIndex (Next_Step s) (Next_Swap_Span s) (Hovered_Cell s)) s.

(** ** Element arrays and GPU buffers *)

(** [Array.from({ length: n }, (_, i) => i)]. *)
Definition iota (n : Z) : list Z := map Z.of_nat (seq 0 (Z.to_nat n)).

(** [l[i] = v] on a typed array: an index out of range is ignored. *)
Fixpoint list_set (l : list Z) (i : nat) (v : Z) : list Z :=
  match l, i with
  | [], _ => []
  | _ :: t, O => v :: t
  | x :: t, S i' => x :: list_set t i' v
  end.

(** [[l[i], l[j]] = [l[j], l[i]]]: both reads happen before the writes. *)
Definition swap_cells (l : list Z) (i j : nat) : list Z :=
  let a := nth j l 0 in
  let b := nth i l 0 in
  list_set (list_set l i a) j b.

(** The shuffle loop of [randomizeElementArray].  [draws c] stands for the
    outcome of [Math.random] in the iteration entered with [currentIndex = c];
    [Math.floor (Math.random () * c)] is some index below [c]. *)
Fixpoint randomizeLoop (draws : nat -> nat) (currentIndex : nat)
    (elements : list Z) : list Z :=
  match currentIndex with
  | O => elements
  | S c =>
      let randomIndex := (draws (S c) mod (S c))%nat in
      randomizeLoop draws c (swap_cells elements c randomIndex)
  end.

Definition randomizeElementArray (draws : nat -> nat) (elements : list Z) :=
  randomizeLoop draws (length elements) elements.

(** [device.queue.writeBuffer (buffer, 0, data)]. *)
Definition writeBuffer (buffer data : list Z) : list Z :=
  data ++ skipn (length data) buffer.

(** The buffers the sample creates on the device, and the workgroup size the
    compute pipeline was last built with ([NaiveBitonicCompute (size)]). *)
Record Gpu : Type := mkGpu {
  elementsInputBuffer : list Z;
  elementsOutputBuffer : list Z;
  elementsStagingBuffer : list Z;
  atomicSwapsOutputBuffer : Z;
  atomicSwapsStagingBuffer : Z;
  computePipeline : Z
}.

(** The state the closures of the sample share: the settings object, the
    [elements] array, [highestBlockHeight] and the device. *)
Record Sample : Type := mkSample {
  settings : SettingsInterface;
  elements : list Z;
  highestBlockHeight : Z;
  gpu : Gpu
}.

(** [Math.ceil (a / b)]. *)
Definition ceil_div (a b : Z) : Z := - ((- a) / b).

(** The option lists of the two drop-downs:
    [for (let i = start; i >= low; i /= 2) options.push (i)]. *)
Fixpoint halvings (fuel : nat) (i low : Z) : list Z :=
  match fuel with
  | O => []
  | S fuel' => if low <=? i then i :: halvings fuel' (i / 2) low else []
  end.

(** The grid the elements are displayed on, as [resetExecutionInformation]
    (and the initial settings) compute it:
    [Math.sqrt (n) % 2 === 0 ? Math.floor (Math.sqrt (n))
                             : Math.floor (Math.sqrt (n / 2))]
    and [n / width].  On integers, [Math.sqrt (n) % 2 === 0] says that [n]
    is the square of an even number ([Math.sqrt] is exact on squares, and
    the root of a power of two that is not a square is no integer), and
    [Math.floor (Math.sqrt (n / 2))] is the integer square root of the
    halved size. *)
Definition gridWidth (totalElements : Z) : Z :=
  if (Z.sqrt totalElements * Z.sqrt totalElements =? totalElements)
     && Z.even (Z.sqrt totalElements)
  then Z.sqrt totalElements
  else Z.sqrt (totalElements / 2).

Definition gridHeight (totalElements : Z) : Z :=
  totalElements / gridWidth totalElements.

(** The cell under the mouse, from its column and its row counted from the
    bottom: [yIndex * settings['Grid Width'] + xIndex]. *)
Definition cellIndex (gridWidth xIndex yIndex : Z) : Z :=
  yIndex * gridWidth + xIndex.

Section BitonicSort.

(** [device.limits.maxComputeWorkgroupSizeX]. *)
Variable maxInvocationsX : Z.

(** The compute shader of the sample lives in another file; one dispatch is
    taken as a function of the pipeline's workgroup size, the number of
    workgroups, the uniforms [algo] and [blockHeight] and the input buffer,
    from the old to the new contents of the output buffer and of the atomic
    swap counter. *)
Variable computeMain :
  Z -> Z -> Z -> Z -> list Z -> list Z * Z -> list Z * Z.

Definition maxElements : Z := maxInvocationsX * 32.

Definition totalElementOptions : list Z :=
  halvings (Z.to_nat maxElements) maxElements 4.

Definition sizeLimitOptions : list Z :=
  halvings (Z.to_nat maxInvocationsX) maxInvocationsX 2.

Definition initialSettings : SettingsInterface :=
  {| Total_Elements := maxElements;
     Workgroup_Size := maxInvocationsX;
     Size_Limit := maxInvocationsX;
     Workgroups_Per_Step := maxElements / (maxInvocationsX * 2);
     Hovered_Cell := 0;
     Swapped_Cell := 1;
     Step_Index := 0;
     Total_Steps := getNumSteps maxElements;
     Prev_Step := NONE;
     Next_Step := FLIP_LOCAL;
     Prev_Swap_Span := 0;
     Next_Swap_Span := 2;
     executeStep := false;
     Total_Swaps := 0 |}.

(** The state when the first [frame] is requested: the buffers are freshly
    created (zero-filled), the identity array has been shuffled once. *)
Definition initialSample (draws : nat -> nat) : Sample :=
  let zeros := repeat 0 (Z.to_nat maxElements) in
  {| settings := initialSettings;
     elements := randomizeElementArray draws (iota maxElements);
     highestBlockHeight := 2;
     gpu := mkGpu zeros zeros zeros 0 0 maxInvocationsX |}.

Definition resetExecutionInformation (m : Sample) : Sample :=
  let st := settings m in
  let st := set_Workgroup_Size
              (Z.min (Total_Elements st / 2) (Size_Limit st)) st in
  let workgroupsPerStep :=
    ceil_div (Total_Elements st - 1) (Size_Limit st * 2) in
  let st := set_Workgroups_Per_Step workgroupsPerStep st in
  let st := set_Step_Index 0 st in
  let st := set_Total_Steps (getNumSteps (Total_Elements st)) st in
  let st := set_Prev_Step NONE st in
  let st := set_Next_Step FLIP_LOCAL st in
  let st := set_Prev_Swap_Span 0 st in
  let st := set_Next_Swap_Span 2 st in
  (* the atomicToZero pass *)
  let g := gpu m in
  let g := mkGpu (elementsInputBuffer g) (elementsOutputBuffer g)
             (elementsStagingBuffer g) 0 (atomicSwapsStagingBuffer g)
             (computePipeline g) in
  let st := set_Total_Swaps 0 st in
  mkSample st (elements m) 2 g.

Definition rebuildPipeline (m : Sample) : Sample :=
  let st := settings m in
  let g := gpu m in
  mkSample st (elements m) (highestBlockHeight m)
    (mkGpu (elementsInputBuffer g) (elementsOutputBuffer g)
       (elementsStagingBuffer g) (atomicSwapsOutputBuffer g)
       (atomicSwapsStagingBuffer g)
       (Z.min (Total_Elements st / 2) (Size_Limit st))).

Definition resizeElementArray (draws : nat -> nat) (m : Sample) : Sample :=
  let m := mkSample (settings m) (iota (Total_Elements (settings m)))
             (highestBlockHeight m) (gpu m) in
  let m := resetExecutionInformation m in
  let m := rebuildPipeline m in
  let m := mkSample (settings m) (randomizeElementArray draws (elements m))
             (highestBlockHeight m) (gpu m) in
  mkSample (settings m) (elements m) 2 (gpu m).

(** *** GUI events *)

(** The user picks [N] in the ['Total Elements'] drop-down: the GUI stores
    it, then runs the [onChange] handler. *)
Definition totalElementsOnChange (draws : nat -> nat) (N : Z) (m : Sample) :=
  let m := mkSample (set_Total_Elements N (settings m)) (elements m)
             (highestBlockHeight m) (gpu m) in
  resizeElementArray draws m.

(** The user picks [L] in the ['Size Limit'] drop-down. *)
Definition sizeLimitOnChange (L : Z) (m : Sample) : Sample :=
  let st := set_Size_Limit L (settings m) in
  let constraint := Z.min (Total_Elements st / 2) (Size_Limit st) in
  let workgroupsPerStep :=
    ceil_div (Total_Elements st - 1) (Size_Limit st * 2) in
  let st := set_Workgroup_Size constraint st in
  let st := set_Workgroups_Per_Step workgroupsPerStep st in
  rebuildPipeline (mkSample st (elements m) (highestBlockHeight m) (gpu m)).

(** ['Execute Sort Step']. *)
Definition executeSortStepOnChange (m : Sample) : Sample :=
  mkSample (set_executeStep true (settings m)) (elements m)
    (highestBlockHeight m) (gpu m).

(** ['Randomize Values']. *)
Definition randomizeValuesOnChange (draws : nat -> nat) (m : Sample) :=
  let m := mkSample (settings m) (randomizeElementArray draws (elements m))
             (highestBlockHeight m) (gpu m) in
  resetExecutionInformation m.

(** One firing of the timer that ['Complete Sort'] starts. *)
Definition sortIntervalTick (m : Sample) : Sample :=
  mkSample (setSwappedCell (set_executeStep true (settings m))) (elements m)
    (highestBlockHeight m) (gpu m).

(** The mouse moves over cell [c]: the controller stores it and runs
    [setSwappedCell]. *)
Definition hoveredCellOnChange (c : Z) (m : Sample) : Sample :=
  mkSample (set_Hovered_Cell c (setSwappedCell (set_Hovered_Cell c (settings m))))
    (elements m) (highestBlockHeight m) (gpu m).

(** *** [frame] *)

(** The bookkeeping [frame] does after it has encoded the dispatch: step
    index, previous step, and the choice of the next step and span. *)
Definition sequence (st : SettingsInterface) (highestBlockHeight : Z)
    : SettingsInterface * Z :=
  let st := set_Step_Index (Step_Index st + 1) st in
  let st := set_Prev_Step (Next_Step st) st in
  let st := set_Prev_Swap_Span (Next_Swap_Span st) st in
  let st := set_Next_Swap_Span (Next_Swap_Span st / 2) st in
  if Next_Swap_Span st =? 1 then
    let highestBlockHeight := highestBlockHeight * 2 in
    if highestBlockHeight =? Total_Elements st * 2 then
      (set_Next_Swap_Span 0 (set_Next_Step NONE st), highestBlockHeight)
    else if highestBlockHeight >? Workgroup_Size st * 2 then
      (set_Next_Swap_Span highestBlockHeight (set_Next_Step FLIP_GLOBAL st),
       highestBlockHeight)
    else
      (set_Next_Swap_Span highestBlockHeight (set_Next_Step FLIP_LOCAL st),
       highestBlockHeight)
  else
    (if Next_Swap_Span st >? Workgroup_Size st * 2
     then set_Next_Step DISPERSE_GLOBAL st
     else set_Next_Step DISPERSE_LOCAL st,
     highestBlockHeight).

(** Does this frame dispatch a sort step? *)
Definition dispatches (m : Sample) : bool :=
  executeStep (settings m)
  && negb (highestBlockHeight m =? Total_Elements (settings m) * 2).

(** One call of [frame] on an active page.  The uniform buffer also
    receives the grid dimensions, which only the display reads.  The
    dispatch is encoded before the bookkeeping and runs at [submit], on the
    step type and span read when the frame began; the read-back that follows
    [submit] happens whenever [executeStep] is set, dispatch or not. *)
Definition frame (m : Sample) : Sample :=
  let st := settings m in
  let g := gpu m in
  let input := writeBuffer (elementsInputBuffer g) (elements m) in
  let algo := StepEnum (Next_Step st) in
  let blockHeight := Next_Swap_Span st in
  let '(st', hbh, g) :=
    if dispatches m then
      let '(output, swaps) :=
        computeMain (computePipeline g) (Workgroups_Per_Step st)
          algo blockHeight input
          (elementsOutputBuffer g, atomicSwapsOutputBuffer g) in
      let '(st', hbh) := sequence st (highestBlockHeight m) in
      (* copyBufferToBuffer: output -> staging, for both buffers *)
      (st', hbh, mkGpu input output output swaps swaps (computePipeline g))
    else
      (st, highestBlockHeight m,
       mkGpu input (elementsOutputBuffer g) (elementsStagingBuffer g)
         (atomicSwapsOutputBuffer g) (atomicSwapsStagingBuffer g)
         (computePipeline g)) in
  let '(st', elements') :=
    if executeStep st then
      let elementsOutput :=
        firstn (Z.to_nat (Total_Elements st')) (elementsStagingBuffer g) in
      let st' := set_Total_Swaps (atomicSwapsStagingBuffer g) st' in
      (setSwappedCell st', elementsOutput)
    else (st', elements m) in
  mkSample (set_executeStep false st') elements' hbh g.

(** One manual step: the button, then the next animation frame. *)
Definition advance (m : Sample) : Sample := frame (executeSortStepOnChange m).

Fixpoint advances (k : nat) (m : Sample) : Sample :=
  match k with
  | O => m
  | S k' => advances k' (advance m)
  end.

(** A session for [N] elements under size limit [L], started from any state
    of the page: both drop-downs are set. *)
Definition startSession (draws : nat -> nat) (N L : Z) (m : Sample) : Sample :=
  totalElementsOnChange draws N (sizeLimitOnChange L m).

(** What the user can do to the page, and the states that result. *)
Inductive Event : Type :=
  | SelectTotalElements (draws : nat -> nat) (N : Z)
  | SelectSizeLimit (L : Z)
  | ExecuteSortStep
  | RandomizeValues (draws : nat -> nat)
  | IntervalTick
  | Hover (c : Z)
  | AnimationFrame.

Definition handle (e : Event) (m : Sample) : Sample :=
  match e with
  | SelectTotalElements draws N => totalElementsOnChange draws N m
  | SelectSizeLimit L => sizeLimitOnChange L m
  | ExecuteSortStep => executeSortStepOnChange m
  | RandomizeValues draws => randomizeValuesOnChange draws m
  | IntervalTick => sortIntervalTick m
  | Hover c => hoveredCellOnChange c m
  | AnimationFrame => frame m
  end.

(** The drop-downs only offer the entries of their option lists. *)
Definition offered (e : Event) : Prop :=
  match e with
  | SelectTotalElements _ N => In N totalElementOptions
  | SelectSizeLimit L => In L sizeLimitOptions
  | _ => True
  end.

Inductive reachable : Sample -> Prop :=
  | reachable_initial draws : reachable (initialSample draws)
  | reachable_handle e m :
      reachable m -> offered e -> reachable (handle e m).

(** *** Session creation *)

(** The specification's [createSession (totalElements, sizeLimit)] is, in
    the source, the pair of drop-down handlers.  Neither has a failing path
    (no [throw], no early [return]), so the outcome is always a session;
    [ConfigurationError] is the outcome the specification names for a
    rejected configuration, and nothing produces it. *)
Inductive Outcome : Type :=
  | Session (s : Sample)
  | ConfigurationError.

Definition createSession (draws : nat -> nat) (N L : Z) (m : Sample)
    : Outcome :=
  Session (startSession draws N L m).

End BitonicSort.

(** * The image sequence loader

    The second module of the file loads a sequence of G-Buffer images, one
    file per frame and channel, into one texture per channel.  It is
    embedded here as far as its results are integers and strings:
    [detectFrameCount], the file names, [loadFrame] (and [seekToFrame],
    which is [loadFrame]) and [loadGBufferImages].  The network and the
    image decoder are oracles handed to the functions.  Frame numbers are
    integers, as the callers pass them; the playback clock ([play], [pause],
    [seek], [update] and the frame rate) works on fractional times and is left
    out, and so is the content of the textures.  A call of [loadFrame] runs
    from start to end before the next one. *)

Module ImageSequence.
Import Ascii String.
Local Open Scope string_scope.

(** [i.toString ()] of a frame number. *)
Definition toString (n : nat) : string :=
  DecimalString.NilEmpty.string_of_uint (Nat.to_uint n).

Fixpoint zeros (k : nat) : string :=
  match k with
  | O => ""
  | S k' => String "0"%char (zeros k')
  end.

(** [s.padStart (targetLength, '0')]. *)
Definition padStart (targetLength : nat) (s : string) : string :=
  zeros (targetLength - length s) ++ s.

(** The number a string of decimal digits denotes. *)
Definition digitsValue (s : string) : option nat :=
  option_map Nat.of_uint (DecimalString.NilEmpty.uint_of_string s).

(** The template [`${basePath}0000.${frameString}.${channel}.jpg`]. *)
Definition imagePath (basePath : string) (frameNumber : nat) (channel : string)
    : string :=
  basePath ++ "0000." ++ padStart 4%nat (toString frameNumber)
    ++ "." ++ channel ++ ".jpg".

Definition maxFrames : nat := Z.to_nat 10000.

(** The loop of [detectFrameCount], from iteration [i] on, with [fuel]
    iterations left.  [fetchOk path] tells whether the HEAD request for
    [path] comes back with [response.ok]; a request that throws counts as
    one that is not ok, as both leave the loop. *)
Fixpoint detectLoop (fetchOk : string -> bool) (basePath channel : string)
    (fuel i frameCount : nat) : nat :=
  match fuel with
  | O => frameCount
  | S fuel' =>
      if fetchOk (imagePath basePath i channel)
      then detectLoop fetchOk basePath channel fuel' (S i) (i + 1)%nat
      else frameCount
  end.

Definition detectFrameCount (fetchOk : string -> bool)
    (basePath channel : string) : nat :=
  detectLoop fetchOk basePath channel maxFrames 0%nat 0%nat.

(** The fields of [ImageSequenceController] that [loadFrame] reads or
    writes; [textures] lists the channels that have a texture, with the size
    of the texture. *)
Record Controller : Type := mkController {
  basePath : string;
  currentFrame : Z;
  totalFrames : Z;
  channels : list string;
  textures : list (string * (Z * Z))
}.

Definition set_currentFrame (v : Z) (c : Controller) : Controller :=
  mkController (basePath c) v (totalFrames c) (channels c) (textures c).

(** How a call of [loadFrame] ends: the promise resolves after the images are
    in the textures, resolves after the out-of-range warning, or rejects. *)
Inductive Completion : Type :=
  | Loaded
  | OutOfRange
  | Failed.

(** Whether the promise of [loadImageToTexture] resolves: the image loads
    and decodes ([loads]) and the channel has a texture. *)
Definition loadImageToTexture (loads : string -> bool)
    (imagePath channel : string) (c : Controller) : bool :=
  loads imagePath && existsb (fun t => String.eqb (fst t) channel) (textures c).

Definition loadFrame (loads : string -> bool) (frameNumber : Z)
    (c : Controller) : Controller * Completion :=
  if (frameNumber <? 0)%Z || (frameNumber >=? totalFrames c)%Z
  then (c, OutOfRange)
  else
    if forallb
         (fun channel =>
            loadImageToTexture loads
              (imagePath (basePath c) (Z.to_nat frameNumber) channel)
              channel c)
         (channels c)
    then (set_currentFrame frameNumber c, Loaded)
    else (c, Failed).

Definition seekToFrame (loads : string -> bool) (frameNumber : Z)
    (c : Controller) : Controller * Completion :=
  loadFrame loads frameNumber c.

(** The path [loadFirstFrame] asks for. *)
Definition firstFramePath (basePath channel : string) : string :=
  basePath ++ "0000.0000." ++ channel ++ ".jpg".

Inductive LoadError : Type :=
  | NoChannels
  | NoFrames
  | FirstFrameFailed (channel : string)
  | FrameFailed.

Inductive LoadResult : Type :=
  | Ok (controller : Controller)
  | Error (e : LoadError).

(** [loadGBufferImages].  [config] lists the keys of the configuration
    object in the order of [Object.keys], with their values; [totalFrames]
    is [None] when the argument is left out; [firstFrame path] is the size
    of the image at [path], or [None] when it does not load. *)
Definition loadGBufferImages
    (fetchOk : string -> bool) (firstFrame : string -> option (Z * Z))
    (loads : string -> bool)
    (config : list (string * bool)) (basePath : string)
    (totalFrames : option Z) : LoadResult :=
  let channels := map fst (filter snd config) in
  match channels with
  | [] => Error NoChannels
  | firstChannel :: _ =>
      let detected :=
        Z.of_nat (detectFrameCount fetchOk basePath firstChannel) in
      let frameCount :=
        match totalFrames with
        | Some n => if (n =? 0)%Z then detected else n
        | None => detected
        end in
      if (frameCount =? 0)%Z then Error NoFrames
      else
        match firstFrame (firstFramePath basePath firstChannel) with
        | None => Error (FirstFrameFailed firstChannel)
        | Some size =>
            let textures := map (fun channel => (channel, size)) channels in
            let controller :=
              mkController basePath 0 frameCount channels textures in
            match loadFrame loads 0 controller with
            | (_, Failed) => Error FrameFailed
            | (controller', _) => Ok controller'
            end
        end
  end.

(** A sequence of [loadFrame] calls, each with the answers the decoder gives
    during that call. *)
Fixpoint loadFrames (requests : list ((string -> bool) * Z)) (c : Controller)
    : Controller :=
  match requests with
  | [] => c
  | (loads, frameNumber) :: rest =>
      loadFrames rest (fst (loadFrame loads frameNumber c))
  end.

End ImageSequence.

(** * Vocabulary of the statements *)

(** ** Powers of two and spans *)

Definition is_pow2 (x : Z) : Prop := exists k, 0 <= k /\ x = 2 ^ k.

(** A span the sequencer can hand to the predictor for an array of [N]
    elements: a power of two above one that divides [N]. *)
Definition valid_span (N h : Z) : Prop :=
  (exists k, 1 <= k /\ h = 2 ^ k) /\ (h | N).

(** ** Positions, cycles and step counts *)

(** The part of a session a step descriptor and the sequencer depend on. *)
Record Position : Type := mkPosition {
  pos_step : StepType;
  pos_span : Z;
  pos_height : Z;
  pos_index : Z
}.

Definition position (m : Sample) : Position :=
  mkPosition (Next_Step (settings m)) (Next_Swap_Span (settings m))
    (highestBlockHeight m) (Step_Index (settings m)).

(** The [k]-th triangular number, [1 + 2 + ... + k]. *)
Definition triangle (k : Z) : Z := k * (k + 1) / 2.

(** The step the sequencer schedules at span [2 ^ j] of the cycle of block
    height [2 ^ k], for workgroup size [W]. *)
Definition stepAt (W k j : Z) : StepType :=
  if j =? k
  then (if 2 ^ k >? W * 2 then FLIP_GLOBAL else FLIP_LOCAL)
  else (if 2 ^ j >? W * 2 then DISPERSE_GLOBAL else DISPERSE_LOCAL).

(** [in_cycle n W k j m]: the session sorts [2 ^ n] elements with workgroup
    size [W], and its next step has span [2 ^ j] in the cycle of block
    height [2 ^ k]. *)
Definition in_cycle (n W k j : Z) (m : Sample) : Prop :=
  Total_Elements (settings m) = 2 ^ n /\
  Workgroup_Size (settings m) = W /\
  1 <= j <= k /\ k <= n /\
  position m =
    mkPosition (stepAt W k j) (2 ^ j) (2 ^ k) (triangle (k - 1) + (k - j)).

Definition finished (n : Z) (m : Sample) : Prop :=
  Total_Elements (settings m) = 2 ^ n /\
  position m = mkPosition NONE 0 (2 ^ (n + 1)) (triangle n).

(** The number of steps left when the next step has span [2 ^ j] in the
    cycle of block height [2 ^ k]: the [j] steps that finish this cycle and
    the cycles of heights [2 ^ (k + 1)] to [2 ^ n]. *)
Definition remaining (n k j : Z) : Z := j + triangle n - triangle k.

(** ** Invariants of the page *)

(** When the next step is NONE, the block height has reached twice the
    array size, and [elements] and ['Total Swaps'] are what was last read
    back from the staging buffers. *)
Definition settled (m : Sample) : Prop :=
  Next_Step (settings m) = NONE ->
  highestBlockHeight m = Total_Elements (settings m) * 2 /\
  elements m =
    firstn (Z.to_nat (Total_Elements (settings m)))
      (elementsStagingBuffer (gpu m)) /\
  Total_Swaps (settings m) = atomicSwapsStagingBuffer (gpu m).

(** The array size is a power of two from 4 on; the next span is a power of
    two above one, at most the current block height, which is at most the
    array size; or the sort is over, with span 0 and a block height of twice
    the array size. *)
Definition scheduled (m : Sample) : Prop :=
  exists n, 2 <= n /\ Total_Elements (settings m) = 2 ^ n /\
    ((exists k j, 1 <= j <= k /\ k <= n /\
        Next_Step (settings m) <> NONE /\
        Next_Swap_Span (settings m) = 2 ^ j /\
        highestBlockHeight m = 2 ^ k) \/
     (Next_Step (settings m) = NONE /\
      Next_Swap_Span (settings m) = 0 /\
      highestBlockHeight m = 2 ^ (n + 1))).

(** The size limit is a power of two, and the compute pipeline was built
    for the workgroup size the settings show. *)
Definition limited (m : Sample) : Prop :=
  is_pow2 (Size_Limit (settings m)) /\
  computePipeline (gpu m) = Workgroup_Size (settings m).

(** The step types that fit span [2 ^ j] in the cycle of block height
    [2 ^ k]: a flip at the top of the cycle, a disperse below; a step of
    span 2 is local. *)
Definition fits (k j : Z) (s : StepType) : Prop :=
  match s with
  | NONE => False
  | FLIP_LOCAL => j = k
  | FLIP_GLOBAL => j = k /\ 2 <= j
  | DISPERSE_LOCAL => j < k
  | DISPERSE_GLOBAL => j < k /\ 2 <= j
  end.

(** What the execution information shows, in terms of the cycle [k] and the
    exponent [j] of the next span. *)
Definition tracked (m : Sample) : Prop :=
  exists n, 2 <= n /\
    Total_Elements (settings m) = 2 ^ n /\
    Total_Steps (settings m) = triangle n /\
    1 <= Workgroup_Size (settings m) /\
    1 <= Size_Limit (settings m) /\
    ((exists k j, 1 <= j <= k /\ k <= n /\
        fits k j (Next_Step (settings m)) /\
        Next_Swap_Span (settings m) = 2 ^ j /\
        highestBlockHeight m = 2 ^ k /\
        Step_Index (settings m) = triangle (k - 1) + (k - j) /\
        ((k = 1 /\ Prev_Step (settings m) = NONE /\
          Prev_Swap_Span (settings m) = 0) \/
         (2 <= k /\ Prev_Step (settings m) <> NONE /\
          Prev_Swap_Span (settings m) = (if j =? k then 2 else 2 ^ (j + 1))))) \/
     (Next_Step (settings m) = NONE /\
      Next_Swap_Span (settings m) = 0 /\
      highestBlockHeight m = 2 ^ (n + 1) /\
      Step_Index (settings m) = triangle n /\
      Prev_Step (settings m) = DISPERSE_LOCAL /\
      Prev_Swap_Span (settings m) = 2)).

(** A shader cannot resize the output buffer, which is as large as the
    input buffer. *)
Definition keeps_size
    (computeMain : Z -> Z -> Z -> Z -> list Z -> list Z * Z -> list Z * Z)
    : Prop :=
  forall w g a b input output counter,
    length input = length output ->
    length (fst (computeMain w g a b input (output, counter))) = length output.

(** The three element buffers hold [maxElements] cells, and the array holds
    one cell per element, no more than the buffers can take. *)
Definition sized (maxInvocationsX : Z) (m : Sample) : Prop :=
  length (elementsInputBuffer (gpu m)) = Z.to_nat (maxElements maxInvocationsX) /\
  length (elementsOutputBuffer (gpu m)) = Z.to_nat (maxElements maxInvocationsX) /\
  length (elementsStagingBuffer (gpu m)) = Z.to_nat (maxElements maxInvocationsX) /\
  length (elements m) = Z.to_nat (Total_Elements (settings m)) /\
  0 <= Total_Elements (settings m) <= maxElements maxInvocationsX.

(** The dispatch parameters follow the two drop-downs. *)
Definition configured (m : Sample) : Prop :=
  Workgroups_Per_Step (settings m) =
    ceil_div (Total_Elements (settings m) - 1) (Size_Limit (settings m) * 2) /\
  Workgroup_Size (settings m) =
    Z.min (Total_Elements (settings m) / 2) (Size_Limit (settings m)).

(** ** Sequences of events *)

Fixpoint handles
    (computeMain : Z -> Z -> Z -> Z -> list Z -> list Z * Z -> list Z * Z)
    (es : list Event) (m : Sample) : Sample :=
  match es with
  | [] => m
  | e :: es' => handles computeMain es' (handle computeMain e m)
  end.

(** ** A concrete page, for examples *)

Module Demo.
(** A shader that copies its input and counts no swap. *)
Definition passThrough
    : Z -> Z -> Z -> Z -> list Z -> list Z * Z -> list Z * Z :=
  fun _ _ _ _ input old => (input, snd old).

(** [Math.random] returning 0 every time. *)
Definition firstDraw : nat -> nat := fun _ => O.

(** The page on a device whose workgroups hold 256 invocations. *)
Definition page : Sample := initialSample 256 firstDraw.

(** That page after picking 16 elements and a size limit of 2, and one
    executed step. *)
Definition started : Sample :=
  handles passThrough
    [SelectTotalElements firstDraw 16; SelectSizeLimit 2;
     ExecuteSortStep; AnimationFrame] page.
End Demo.

(** Settings with a given next step, span and hovered cell. *)
Definition sampleSettings (next : StepType) (span hovered N : Z)
    : SettingsInterface :=
  {| Total_Elements := N; Workgroup_Size := N / 2; Size_Limit := N / 2;
     Workgroups_Per_Step := 1; Hovered_Cell := hovered; Swapped_Cell := 0;
     Step_Index := 0; Total_Steps := getNumSteps N; Prev_Step := NONE;
     Next_Step := next; Prev_Swap_Span := 0; Next_Swap_Span := span;
     executeStep := false; Total_Swaps := 0 |}.

(** * Proofs *)

(** ** Powers of two *)

Lemma pow2_pos k : 0 <= k -> 0 < 2 ^ k.
Proof. intros; apply Z.pow_pos_nonneg; lia. Qed.

Lemma pow2_succ k : 0 <= k -> 2 ^ (k + 1) = 2 * 2 ^ k.
Proof. intros; rewrite Z.pow_add_r by lia; lia. Qed.

Lemma pow2_double k : 0 <= k -> 2 ^ (k + 1) = 2 ^ k * 2.
Proof. intros; rewrite pow2_succ by lia; lia. Qed.

Lemma pow2_ge_2 k : 1 <= k -> 2 <= 2 ^ k.
Proof.
  intros H. replace k with ((k - 1) + 1) by lia.
  rewrite pow2_succ by lia. pose proof (pow2_pos (k - 1)); lia.
Qed.

Lemma pow2_half k : 1 <= k -> 2 ^ k / 2 = 2 ^ (k - 1).
Proof.
  intros H. replace k with ((k - 1) + 1) at 1 by lia.
  rewrite pow2_succ by lia. rewrite Z.mul_comm, Z.div_mul; lia.
Qed.

Lemma pow2_le_mono j k : 0 <= j <= k -> 2 ^ j <= 2 ^ k.
Proof. intros; apply Z.pow_le_mono_r; lia. Qed.

Lemma pow2_lt_mono j k : 0 <= j < k -> 2 ^ j < 2 ^ k.
Proof. intros; apply Z.pow_lt_mono_r; lia. Qed.

Lemma pow2_inj j k : 0 <= j -> 0 <= k -> 2 ^ j = 2 ^ k -> j = k.
Proof. intros Hj Hk H. apply (Z.pow_inj_r 2); lia. Qed.

Lemma valid_span_even N h :
  valid_span N h -> exists a, 1 <= a /\ h = 2 * a.
Proof.
  intros [[k [Hk ->]] _]. exists (2 ^ (k - 1)). split.
  - pose proof (pow2_pos (k - 1)); lia.
  - rewrite <- pow2_succ by lia. f_equal; lia.
Qed.

(** ** Arithmetic of the two pairings *)

Section Pairing.
Variables (h i : Z).
Hypothesis h_pos : 0 < h.
Hypothesis i_nonneg : 0 <= i.

Lemma flip_formula :
  swappedIndex FLIP_LOCAL h i = h * (i / h + 1) - i mod h - 1.
Proof. simpl. rewrite Z.rem_mod_nonneg by lia. reflexivity. Qed.

Lemma flip_global_same :
  swappedIndex FLIP_GLOBAL h i = swappedIndex FLIP_LOCAL h i.
Proof. reflexivity. Qed.

Lemma flip_block :
  swappedIndex FLIP_LOCAL h i / h = i / h /\
  swappedIndex FLIP_LOCAL h i mod h = h - 1 - i mod h.
Proof.
  rewrite flip_formula.
  pose proof (Z.mod_pos_bound i h h_pos) as Hr.
  assert (E : h * (i / h + 1) - i mod h - 1 = h * (i / h) + (h - 1 - i mod h))
    by lia.
  rewrite E. split.
  - symmetry. apply (Z.div_unique_pos _ _ _ (h - 1 - i mod h)); lia.
  - symmetry. apply (Z.mod_unique_pos _ _ (i / h)); lia.
Qed.

Lemma flip_nonneg : 0 <= swappedIndex FLIP_LOCAL h i.
Proof.
  rewrite flip_formula.
  pose proof (Z.mod_pos_bound i h h_pos).
  pose proof (Z.div_pos i h i_nonneg h_pos).
  nia.
Qed.
End Pairing.

Section Disperse.
Variables (a i : Z).
Hypothesis a_pos : 0 < a.
Hypothesis i_nonneg : 0 <= i.

(** On an even block height [2 * a] the disperse pairing moves an index of
    the lower half of its block up by [a], and one of the upper half down. *)
Lemma disperse_formula :
  swappedIndex DISPERSE_LOCAL (2 * a) i =
  if i mod (2 * a) <? a then i + a else i - a.
Proof.
  unfold swappedIndex.
  rewrite Z.rem_mod_nonneg by lia.
  replace (2 * a / 2) with a by (rewrite Z.mul_comm, Z.div_mul; lia).
  reflexivity.
Qed.

Lemma disperse_block :
  swappedIndex DISPERSE_LOCAL (2 * a) i / (2 * a) = i / (2 * a) /\
  swappedIndex DISPERSE_LOCAL (2 * a) i mod (2 * a) =
    (if i mod (2 * a) <? a then i mod (2 * a) + a else i mod (2 * a) - a).
Proof.
  rewrite disperse_formula.
  assert (Hh : 0 < 2 * a) by lia.
  pose proof (Z.mod_pos_bound i (2 * a) Hh) as Hr.
  pose proof (Z.div_mod i (2 * a) ltac:(lia)) as Hi.
  destruct (Z.ltb_spec (i mod (2 * a)) a) as [Hlt | Hge].
  - split; symmetry.
    + apply (Z.div_unique_pos _ _ _ (i mod (2 * a) + a)); lia.
    + apply (Z.mod_unique_pos _ _ (i / (2 * a))); lia.
  - split; symmetry.
    + apply (Z.div_unique_pos _ _ _ (i mod (2 * a) - a)); lia.
    + apply (Z.mod_unique_pos _ _ (i / (2 * a))); lia.
Qed.

Lemma disperse_nonneg : 0 <= swappedIndex DISPERSE_LOCAL (2 * a) i.
Proof.
  rewrite disperse_formula.
  assert (Hh : 0 < 2 * a) by lia.
  pose proof (Z.mod_pos_bound i (2 * a) Hh) as Hr.
  pose proof (Z.div_mod i (2 * a) ltac:(lia)) as Hi.
  pose proof (Z.div_pos i (2 * a) i_nonneg Hh).
  destruct (Z.ltb_spec (i mod (2 * a)) a); nia.
Qed.
End Disperse.

(** An index that stays in its block of height [h] stays below [N] when [h]
    divides [N]. *)
Lemma same_block_in_range (N h i p : Z) :
  0 < h -> (h | N) -> 0 <= i < N -> 0 <= p -> p / h = i / h -> 0 <= p < N.
Proof.
  intros Hh [c ->] Hi Hp Hq. split; [assumption|].
  assert (Hc : i / h < c) by (apply Z.div_lt_upper_bound; lia).
  pose proof (Z.div_mod p h ltac:(lia)).
  pose proof (Z.mod_pos_bound p h Hh).
  nia.
Qed.

Lemma flip_involution (h i : Z) :
  0 < h -> 0 <= i ->
  swappedIndex FLIP_LOCAL h (swappedIndex FLIP_LOCAL h i) = i.
Proof.
  intros Hh Hi.
  pose proof (flip_nonneg h i Hh Hi) as Hp.
  destruct (flip_block h i Hh Hi) as [Hq Hr].
  rewrite (flip_formula h _ Hh Hp), Hq, Hr.
  pose proof (Z.div_mod i h ltac:(lia)). lia.
Qed.

Lemma disperse_involution (a i : Z) :
  0 < a -> 0 <= i ->
  swappedIndex DISPERSE_LOCAL (2 * a)
    (swappedIndex DISPERSE_LOCAL (2 * a) i) = i.
Proof.
  intros Ha Hi.
  pose proof (disperse_nonneg a i Ha Hi) as Hp.
  destruct (disperse_block a i Ha Hi) as [_ Hr].
  rewrite (disperse_formula a _ Ha Hp), Hr.
  rewrite (disperse_formula a i Ha Hi).
  pose proof (Z.mod_pos_bound i (2 * a) ltac:(lia)).
  destruct (Z.ltb_spec (i mod (2 * a)) a).
  - destruct (Z.ltb_spec (i mod (2 * a) + a) a); lia.
  - destruct (Z.ltb_spec (i mod (2 * a) - a) a); lia.
Qed.

(** ** The flip pairing and the involution *)

(** C8.  For an index [i] of an array of [N] elements and a span [h] that is a
    power of two dividing [N], with the next step a flip (local or global),
    [setSwappedCell] stores [h * (floor (i / h) + 1) - i mod h - 1]: the cell
    of the same block of height [h] whose offset in the block is mirrored.
    With next step FLIP_LOCAL, span 4 and hovered cell 1 it stores 2. *)
Theorem flip_partner_is_mirror (st : SettingsInterface) :
  let N := Total_Elements st in
  let h := Next_Swap_Span st in
  let i := Hovered_Cell st in
  let partner := Swapped_Cell (setSwappedCell st) in
  Next_Step st = FLIP_LOCAL \/ Next_Step st = FLIP_GLOBAL ->
  is_pow2 h -> (h | N) -> 0 <= i < N ->
  partner = h * (i / h + 1) - i mod h - 1 /\
  partner / h = i / h /\
  partner mod h = h - 1 - i mod h /\
  0 <= partner < N /\
  swappedIndex FLIP_LOCAL 4 1 = 2.
Proof.
  intros N h i partner Hp [k [Hk Hh]] Hdiv Hi.
  assert (Hpos : 0 < h) by (rewrite Hh; apply pow2_pos; lia).
  assert (E : partner = swappedIndex FLIP_LOCAL h i).
  { unfold partner, setSwappedCell. simpl Swapped_Cell. fold h i.
    destruct Hp as [-> | ->]; reflexivity. }
  rewrite E.
  destruct (flip_block h i Hpos (proj1 Hi)) as [Hq Hr].
  repeat split; try assumption.
  - apply flip_formula; lia.
  - apply flip_nonneg; lia.
  - apply (same_block_in_range N h i); try assumption.
    apply flip_nonneg; lia.
Qed.

Lemma flip_partner_is_mirror_witness :
  Swapped_Cell (setSwappedCell (sampleSettings FLIP_GLOBAL 4 5 8)) = 6 /\
  6 / 4 = 5 / 4.
Proof.
  assert (Hpow : is_pow2 4) by (exists 2; split; [lia | reflexivity]).
  assert (Hdiv : (4 | 8)) by (exists 2; reflexivity).
  destruct (flip_partner_is_mirror (sampleSettings FLIP_GLOBAL 4 5 8)
              (or_intror eq_refl) Hpow Hdiv ltac:(simpl; lia))
    as (H1 & H2 & _).
  split; [exact H1 | exact H2].
Defined.

(** C5.  For every index [i] of an array of [N] elements, every step type and
    every span the predictor can be given (a power of two dividing [N], even
    when the step is DISPERSE_LOCAL so that the half height is an integer; or
    0 with NONE), the predicted partner is again an index of the array, and
    predicting from the partner with the same step type and span gives [i]
    back. *)
Theorem partner_involution (N h i : Z) (p : StepType) :
  0 <= i < N ->
  (is_pow2 h /\ (h | N) /\ (p = DISPERSE_LOCAL -> Z.even h = true))
  \/ (p = NONE /\ h = 0) ->
  let partner := swappedIndex p h i in
  0 <= partner < N /\ swappedIndex p h partner = i.
Proof.
  intros Hi [([k [Hk Hh]] & Hdiv & Hev) | [-> ->]]; [| simpl; auto].
  assert (Hpos : 0 < h) by (rewrite Hh; apply pow2_pos; lia).
  assert (Hflip : 0 <= swappedIndex FLIP_LOCAL h i < N /\
                  swappedIndex FLIP_LOCAL h (swappedIndex FLIP_LOCAL h i) = i).
  { split; [| apply flip_involution; lia].
    apply (same_block_in_range N h i); try assumption.
    - apply flip_nonneg; lia.
    - apply (flip_block h i Hpos (proj1 Hi)). }
  destruct p; cbv zeta; try (simpl; auto; fail); try exact Hflip.
  specialize (Hev eq_refl). apply Z.even_spec in Hev. destruct Hev as [a Ha].
  assert (0 < a) by lia. subst h. rewrite Ha in *. clear Ha.
  split; [| apply disperse_involution; lia].
  apply (same_block_in_range N (2 * a) i); try assumption.
  - apply disperse_nonneg; lia.
  - apply (disperse_block a i); lia.
Qed.

Lemma partner_involution_witness :
  swappedIndex DISPERSE_LOCAL 4 (swappedIndex DISPERSE_LOCAL 4 1) = 1 /\
  swappedIndex FLIP_GLOBAL 8 (swappedIndex FLIP_GLOBAL 8 3) = 3.
Proof.
  split.
  - apply (partner_involution 8 4 1 DISPERSE_LOCAL); [lia |].
    left. split; [exists 2; split; [lia | reflexivity] |].
    split; [exists 2; reflexivity | reflexivity].
  - apply (partner_involution 8 8 3 FLIP_GLOBAL); [lia |].
    left. split; [exists 3; split; [lia | reflexivity] |].
    split; [exists 1; reflexivity | discriminate].
Defined.

(** ** The sequencer, one frame at a time *)

Ltac fields :=
  cbv beta iota zeta delta
      [Total_Elements Workgroup_Size Size_Limit Workgroups_Per_Step
       Hovered_Cell Swapped_Cell Step_Index Total_Steps Prev_Step Next_Step
       Prev_Swap_Span Next_Swap_Span executeStep Total_Swaps
       set_Total_Elements set_Workgroup_Size set_Size_Limit
       set_Workgroups_Per_Step set_Hovered_Cell set_Swapped_Cell
       set_Step_Index set_Total_Steps set_Prev_Step set_Next_Step
       set_Prev_Swap_Span set_Next_Swap_Span set_executeStep set_Total_Swaps
       setSwappedCell settings elements highestBlockHeight gpu
       elementsInputBuffer elementsOutputBuffer elementsStagingBuffer
       atomicSwapsOutputBuffer atomicSwapsStagingBuffer computePipeline
       fst snd andb negb] in *.

(** The same for the handlers, evaluated call by value so that the nested
    record updates are computed once. *)
Ltac handlers :=
  cbv beta iota zeta delta
      [startSession totalElementsOnChange sizeLimitOnChange
       executeSortStepOnChange randomizeValuesOnChange sortIntervalTick
       hoveredCellOnChange resizeElementArray resetExecutionInformation
       rebuildPipeline
       Total_Elements Workgroup_Size Size_Limit Workgroups_Per_Step
       Hovered_Cell Swapped_Cell Step_Index Total_Steps Prev_Step Next_Step
       Prev_Swap_Span Next_Swap_Span executeStep Total_Swaps
       set_Total_Elements set_Workgroup_Size set_Size_Limit
       set_Workgroups_Per_Step set_Hovered_Cell set_Swapped_Cell
       set_Step_Index set_Total_Steps set_Prev_Step set_Next_Step
       set_Prev_Swap_Span set_Next_Swap_Span set_executeStep set_Total_Swaps
       setSwappedCell settings elements highestBlockHeight gpu
       elementsInputBuffer elementsOutputBuffer elementsStagingBuffer
       atomicSwapsOutputBuffer atomicSwapsStagingBuffer computePipeline
       fst snd andb negb] in *.

Section Sequencer.
Variable computeMain :
  Z -> Z -> Z -> Z -> list Z -> list Z * Z -> list Z * Z.

Lemma position_inv (m : Sample) (a : StepType) (b c d : Z) :
  position m = mkPosition a b c d ->
  Next_Step (settings m) = a /\ Next_Swap_Span (settings m) = b /\
  highestBlockHeight m = c /\ Step_Index (settings m) = d.
Proof.
  intros H.
  pose proof (f_equal pos_step H). pose proof (f_equal pos_span H).
  pose proof (f_equal pos_height H). pose proof (f_equal pos_index H).
  auto.
Qed.

(** A frame never touches the configuration of the session. *)
Lemma frame_configuration (m : Sample) :
  Total_Elements (settings (frame computeMain m)) = Total_Elements (settings m) /\
  Size_Limit (settings (frame computeMain m)) = Size_Limit (settings m) /\
  Workgroup_Size (settings (frame computeMain m)) = Workgroup_Size (settings m) /\
  Workgroups_Per_Step (settings (frame computeMain m)) = Workgroups_Per_Step (settings m) /\
  Total_Steps (settings (frame computeMain m)) = Total_Steps (settings m) /\
  Hovered_Cell (settings (frame computeMain m)) = Hovered_Cell (settings m).
Proof.
  destruct m as [st els hbh g]. destruct st. unfold frame, dispatches. fields.
  destruct executeStep0; fields.
  - destruct (hbh =? Total_Elements0 * 2); fields.
    + repeat split.
    + destruct (computeMain _ _ _ _ _ _) as [out sw].
      unfold sequence. fields.
      destruct (Next_Swap_Span0 / 2 =? 1);
        [destruct (hbh * 2 =? Total_Elements0 * 2);
         [| destruct (hbh * 2 >? Workgroup_Size0 * 2)]
        | destruct (Next_Swap_Span0 / 2 >? Workgroup_Size0 * 2)];
        fields; repeat split.
  - repeat split.
Qed.

Lemma advance_configuration (m : Sample) :
  Total_Elements (settings (advance computeMain m)) = Total_Elements (settings m) /\
  Size_Limit (settings (advance computeMain m)) = Size_Limit (settings m) /\
  Workgroup_Size (settings (advance computeMain m)) = Workgroup_Size (settings m) /\
  Workgroups_Per_Step (settings (advance computeMain m)) = Workgroups_Per_Step (settings m) /\
  Total_Steps (settings (advance computeMain m)) = Total_Steps (settings m) /\
  Hovered_Cell (settings (advance computeMain m)) = Hovered_Cell (settings m).
Proof.
  unfold advance.
  destruct (frame_configuration (executeSortStepOnChange m))
    as (H1 & H2 & H3 & H4 & H5 & H6).
  destruct m as [st els hbh g]; destruct st.
  unfold executeSortStepOnChange in *. fields. auto 10.
Qed.

(** A dispatched step whose halved span is not 1 is followed by a disperse
    step of the halved span in the same cycle. *)
Lemma advance_disperse (m : Sample) :
  let st := settings m in
  highestBlockHeight m <> Total_Elements st * 2 ->
  Next_Swap_Span st / 2 <> 1 ->
  position (advance computeMain m) =
    mkPosition
      (if Next_Swap_Span st / 2 >? Workgroup_Size st * 2
       then DISPERSE_GLOBAL else DISPERSE_LOCAL)
      (Next_Swap_Span st / 2) (highestBlockHeight m) (Step_Index st + 1) /\
  Prev_Step (settings (advance computeMain m)) = Next_Step st /\
  Prev_Swap_Span (settings (advance computeMain m)) = Next_Swap_Span st.
Proof.
  destruct m as [st els hbh g]. destruct st. fields. intros Hh Hs.
  unfold advance, frame, dispatches, position,
    executeSortStepOnChange. fields.
  destruct (Z.eqb_spec hbh (Total_Elements0 * 2)) as [E | _]; [contradiction|].
  fields. destruct (computeMain _ _ _ _ _ _) as [out sw].
  unfold sequence. fields.
  destruct (Z.eqb_spec (Next_Swap_Span0 / 2) 1) as [E | _]; [contradiction|].
  destruct (Next_Swap_Span0 / 2 >? Workgroup_Size0 * 2); fields;
    repeat split.
Qed.

(** A dispatched step whose halved span is 1 ends the cycle: the block
    height doubles and decides the next step. *)
Lemma advance_cycle_end (m : Sample) :
  let st := settings m in
  let hbh := highestBlockHeight m * 2 in
  highestBlockHeight m <> Total_Elements st * 2 ->
  Next_Swap_Span st / 2 = 1 ->
  position (advance computeMain m) =
    (if hbh =? Total_Elements st * 2
     then mkPosition NONE 0 hbh (Step_Index st + 1)
     else if hbh >? Workgroup_Size st * 2
     then mkPosition FLIP_GLOBAL hbh hbh (Step_Index st + 1)
     else mkPosition FLIP_LOCAL hbh hbh (Step_Index st + 1)) /\
  Prev_Step (settings (advance computeMain m)) = Next_Step st /\
  Prev_Swap_Span (settings (advance computeMain m)) = Next_Swap_Span st.
Proof.
  destruct m as [st els hbh g]. destruct st. fields. intros Hh Hs.
  unfold advance, frame, dispatches, position,
    executeSortStepOnChange. fields.
  destruct (Z.eqb_spec hbh (Total_Elements0 * 2)) as [E | _]; [contradiction|].
  fields. destruct (computeMain _ _ _ _ _ _) as [out sw].
  unfold sequence. fields. rewrite Hs. rewrite Z.eqb_refl.
  destruct (hbh * 2 =? Total_Elements0 * 2);
    [| destruct (hbh * 2 >? Workgroup_Size0 * 2)]; fields; repeat split.
Qed.

(** Once the block height has reached twice the array size, nothing is
    dispatched and the session stays where it is. *)
Lemma advance_blocked (m : Sample) :
  highestBlockHeight m = Total_Elements (settings m) * 2 ->
  position (advance computeMain m) = position m /\
  Prev_Step (settings (advance computeMain m)) = Prev_Step (settings m) /\
  Prev_Swap_Span (settings (advance computeMain m)) = Prev_Swap_Span (settings m) /\
  elements (advance computeMain m) =
    firstn (Z.to_nat (Total_Elements (settings m)))
      (elementsStagingBuffer (gpu m)) /\
  Total_Swaps (settings (advance computeMain m)) = atomicSwapsStagingBuffer (gpu m) /\
  elementsStagingBuffer (gpu (advance computeMain m)) = elementsStagingBuffer (gpu m) /\
  atomicSwapsStagingBuffer (gpu (advance computeMain m)) = atomicSwapsStagingBuffer (gpu m).
Proof.
  destruct m as [st els hbh g]. destruct st. fields. intros ->.
  unfold advance, frame, dispatches, position,
    executeSortStepOnChange. fields.
  rewrite Z.eqb_refl. fields. repeat split.
Qed.

End Sequencer.

(** ** Triangular numbers *)

Lemma triangle_double k : 2 * triangle k = k * (k + 1).
Proof.
  unfold triangle.
  assert (E : (k * (k + 1)) mod 2 = 0).
  { rewrite Z.mul_mod by lia.
    rewrite Z.add_mod by lia.
    pose proof (Z.mod_pos_bound k 2 ltac:(lia)).
    assert (C : k mod 2 = 0 \/ k mod 2 = 1) by lia.
    destruct C as [-> | ->]; reflexivity. }
  pose proof (Z.div_mod (k * (k + 1)) 2 ltac:(lia)). lia.
Qed.

Lemma triangle_succ k : triangle (k + 1) = triangle k + k + 1.
Proof.
  pose proof (triangle_double k). pose proof (triangle_double (k + 1)). nia.
Qed.

Lemma triangle_pred k : triangle k = triangle (k - 1) + k.
Proof.
  pose proof (triangle_succ (k - 1)) as H.
  replace (k - 1 + 1) with k in H by lia. lia.
Qed.

Lemma triangle_nonneg k : 0 <= k -> 0 <= triangle k.
Proof. intros; pose proof (triangle_double k); nia. Qed.

Lemma triangle_mono j k : 0 <= j <= k -> triangle j <= triangle k.
Proof.
  intros; pose proof (triangle_double j); pose proof (triangle_double k); nia.
Qed.

Lemma getNumSteps_pow2 n : 0 <= n -> getNumSteps (2 ^ n) = triangle n.
Proof.
  intros Hn. unfold getNumSteps, triangle.
  rewrite Z.log2_pow2 by assumption. reflexivity.
Qed.

(** ** Sessions *)

Section Session.
Variable computeMain :
  Z -> Z -> Z -> Z -> list Z -> list Z * Z -> list Z * Z.

Lemma advances_succ (k : nat) (m : Sample) :
  advances computeMain (S k) m = advance computeMain (advances computeMain k m).
Proof.
  revert m; induction k as [| k IH]; intros m; [reflexivity|].
  change (advances computeMain (S (S k)) m)
    with (advances computeMain (S k) (advance computeMain m)).
  rewrite IH. reflexivity.
Qed.

Lemma advances_add (a b : nat) (m : Sample) :
  advances computeMain (a + b) m
    = advances computeMain b (advances computeMain a m).
Proof.
  revert m; induction a as [| a IH]; intros m; [reflexivity|].
  apply (IH (advance computeMain m)).
Qed.

Lemma startSession_settings (draws : nat -> nat) (N L : Z) (m : Sample) :
  let s := startSession draws N L m in
  Total_Elements (settings s) = N /\
  Size_Limit (settings s) = L /\
  Workgroup_Size (settings s) = Z.min (N / 2) L /\
  Workgroups_Per_Step (settings s) = ceil_div (N - 1) (L * 2) /\
  Total_Steps (settings s) = getNumSteps N /\
  position s = mkPosition FLIP_LOCAL 2 2 0 /\
  Prev_Step (settings s) = NONE /\
  Prev_Swap_Span (settings s) = 0 /\
  Total_Swaps (settings s) = 0 /\
  computePipeline (gpu s) = Z.min (N / 2) L.
Proof.
  destruct m as [st els hbh g]; destruct st.
  unfold position. handlers. repeat split.
Qed.

Lemma stepAt_not_NONE W k j : stepAt W k j <> NONE.
Proof.
  unfold stepAt.
  destruct (j =? k); [destruct (2 ^ k >? W * 2) | destruct (2 ^ j >? W * 2)];
    discriminate.
Qed.

Lemma in_cycle_start (draws : nat -> nat) (n L : Z) (m : Sample) :
  1 <= n -> 1 <= L ->
  in_cycle n (Z.min (2 ^ n / 2) L) 1 1 (startSession draws (2 ^ n) L m).
Proof.
  intros Hn HL.
  destruct (startSession_settings draws (2 ^ n) L m)
    as (HN & _ & HW & _ & _ & Hp & _).
  unfold in_cycle. rewrite HN, HW, Hp.
  repeat split; try lia.
  unfold stepAt. rewrite Z.eqb_refl.
  rewrite pow2_half by lia.
  pose proof (pow2_pos (n - 1) ltac:(lia)).
  change (2 ^ 1) with 2. change (triangle (1 - 1) + (1 - 1)) with 0.
  destruct (Z.gtb_spec 2 (Z.min (2 ^ (n - 1)) L * 2)); [lia | reflexivity].
Qed.

(** One step inside a cycle. *)
Lemma in_cycle_disperse (n W k j : Z) (m : Sample) :
  in_cycle n W k j m -> 2 <= j ->
  in_cycle n W k (j - 1) (advance computeMain m) /\
  Prev_Step (settings (advance computeMain m)) = stepAt W k j /\
  Prev_Swap_Span (settings (advance computeMain m)) = 2 ^ j.
Proof.
  intros (HN & HW & Hj & Hk & Hp) Hj2.
  destruct (position_inv _ _ _ _ _ Hp) as (Hstep & Hspan & Hh & Hidx).
  destruct (advance_configuration computeMain m) as (CN & _ & CW & _).
  destruct (advance_disperse computeMain m) as (P & P1 & P2).
  - rewrite Hh, HN, <- pow2_double by lia.
    intros E. apply pow2_inj in E; lia.
  - rewrite Hspan, pow2_half by lia.
    pose proof (pow2_ge_2 (j - 1)); lia.
  - rewrite Hspan, pow2_half, HW, Hh, Hidx in P by lia.
    unfold in_cycle. rewrite CN, CW, P, P1, P2, HN, HW, Hstep, Hspan.
    repeat split; try lia.
    unfold stepAt.
    destruct (Z.eqb_spec (j - 1) k); [lia|].
    f_equal. lia.
Qed.

(** The last step of a cycle that is not the last cycle. *)
Lemma in_cycle_next (n W k : Z) (m : Sample) :
  in_cycle n W k 1 m -> k < n ->
  in_cycle n W (k + 1) (k + 1) (advance computeMain m) /\
  Prev_Step (settings (advance computeMain m)) = stepAt W k 1 /\
  Prev_Swap_Span (settings (advance computeMain m)) = 2.
Proof.
  intros (HN & HW & Hj & Hk & Hp) Hlt.
  destruct (position_inv _ _ _ _ _ Hp) as (Hstep & Hspan & Hh & Hidx).
  destruct (advance_configuration computeMain m) as (CN & _ & CW & _).
  destruct (advance_cycle_end computeMain m) as (P & P1 & P2).
  - rewrite Hh, HN, <- pow2_double by lia.
    intros E. apply pow2_inj in E; lia.
  - rewrite Hspan. reflexivity.
  - rewrite Hh, HN, HW, Hidx, <- !pow2_double in P by lia.
    destruct (Z.eqb_spec (2 ^ (k + 1)) (2 ^ (n + 1))) as [E | _];
      [apply pow2_inj in E; lia|].
    unfold in_cycle. rewrite CN, CW, P1, P2, HN, HW, Hstep, Hspan.
    repeat split; try lia.
    rewrite P. unfold stepAt. rewrite Z.eqb_refl.
    replace (triangle (k + 1 - 1) + (k + 1 - (k + 1)))
      with (triangle (k - 1) + (k - 1) + 1)
      by (replace (k + 1 - 1) with k by lia;
          rewrite (triangle_pred k); lia).
    destruct (2 ^ (k + 1) >? W * 2); reflexivity.
Qed.

(** The last step of the last cycle. *)
Lemma in_cycle_last (n W : Z) (m : Sample) :
  in_cycle n W n 1 m ->
  finished n (advance computeMain m) /\
  Prev_Step (settings (advance computeMain m)) = stepAt W n 1 /\
  Prev_Swap_Span (settings (advance computeMain m)) = 2.
Proof.
  intros (HN & HW & Hj & Hk & Hp).
  destruct (position_inv _ _ _ _ _ Hp) as (Hstep & Hspan & Hh & Hidx).
  destruct (advance_configuration computeMain m) as (CN & _ & CW & _).
  destruct (advance_cycle_end computeMain m) as (P & P1 & P2).
  - rewrite Hh, HN, <- pow2_double by lia.
    intros E. apply pow2_inj in E; lia.
  - rewrite Hspan. reflexivity.
  - rewrite Hh, HN, HW, Hidx, <- !pow2_double in P by lia.
    rewrite Z.eqb_refl in P.
    unfold finished. rewrite CN, P1, P2, HN, Hstep, Hspan, P.
    repeat split.
    f_equal. rewrite (triangle_pred n). lia.
Qed.

End Session.

Section Run.
Variable computeMain :
  Z -> Z -> Z -> Z -> list Z -> list Z * Z -> list Z * Z.

Lemma run_cycles (n W : Z) :
  forall (r : nat) (k j : Z) (m : Sample),
    in_cycle n W k j m ->
    Z.of_nat r = remaining n k j ->
    finished n (advances computeMain r m) /\
    Prev_Step (settings (advances computeMain r m)) = stepAt W n 1 /\
    Prev_Swap_Span (settings (advances computeMain r m)) = 2 /\
    forall i, (i < r)%nat ->
      exists k' j', in_cycle n W k' j' (advances computeMain i m).
Proof.
  unfold remaining.
  induction r as [| r IH]; intros k j m Hin Hr.
  - destruct Hin as (_ & _ & Hj & Hk & _).
    pose proof (triangle_mono k n ltac:(lia)). lia.
  - assert (Hin' := Hin). destruct Hin' as (_ & _ & Hj & Hk & _).
    assert (Hhere : forall i, (i < S r)%nat ->
              (forall i', (i' < r)%nat -> exists k' j',
                 in_cycle n W k' j'
                   (advances computeMain i' (advance computeMain m))) ->
              exists k' j', in_cycle n W k' j' (advances computeMain i m)).
    { intros [| i'] Hi Hrest; [exists k, j; exact Hin|].
      apply Hrest. lia. }
    change (advances computeMain (S r) m)
      with (advances computeMain r (advance computeMain m)).
    destruct (Z.le_gt_cases 2 j) as [Hj2 | Hj1].
    + destruct (in_cycle_disperse computeMain n W k j m Hin Hj2) as (Hn & _).
      destruct (IH k (j - 1) _ Hn ltac:(lia)) as (F & P1 & P2 & Hall).
      split; [exact F|]. split; [exact P1|]. split; [exact P2|].
      intros i Hi. apply Hhere; assumption.
    + assert (j = 1) by lia. subst j.
      destruct (Z.lt_ge_cases k n) as [Hlt | Hge].
      * destruct (in_cycle_next computeMain n W k m Hin Hlt) as (Hn & _).
        pose proof (triangle_succ k).
        destruct (IH (k + 1) (k + 1) _ Hn ltac:(lia)) as (F & P1 & P2 & Hall).
        split; [exact F|]. split; [exact P1|]. split; [exact P2|].
      intros i Hi. apply Hhere; assumption.
      * assert (k = n) by lia. subst k.
        destruct (in_cycle_last computeMain n W m Hin) as (F & P1 & P2).
        assert (r = O) by lia. subst r.
        split; [exact F|]. split; [exact P1|]. split; [exact P2|].
        intros i Hi. apply Hhere; [assumption|]. intros i' Hi'. lia.
Qed.

(** A session of [2 ^ n] elements under size limit [L], traced from its
    start. *)
Lemma session_trace (draws : nat -> nat) (n L : Z) (m : Sample) :
  1 <= n -> 1 <= L ->
  let W := Z.min (2 ^ n / 2) L in
  let s0 := startSession draws (2 ^ n) L m in
  let total := Z.to_nat (triangle n) in
  finished n (advances computeMain total s0) /\
  Prev_Step (settings (advances computeMain total s0)) = stepAt W n 1 /\
  Prev_Swap_Span (settings (advances computeMain total s0)) = 2 /\
  forall i, (i < total)%nat ->
    exists k j, in_cycle n W k j (advances computeMain i s0).
Proof.
  intros Hn HL W s0 total.
  apply (run_cycles n W total 1 1).
  - apply in_cycle_start; assumption.
  - unfold remaining, total.
    pose proof (triangle_nonneg n ltac:(lia)).
    rewrite Z2Nat.id by assumption.
    change (triangle 1) with 1. lia.
Qed.

(** The configuration of a session never changes while it is advanced. *)
Lemma advances_configuration (k : nat) (m : Sample) :
  Total_Elements (settings (advances computeMain k m))
    = Total_Elements (settings m) /\
  Size_Limit (settings (advances computeMain k m))
    = Size_Limit (settings m) /\
  Workgroup_Size (settings (advances computeMain k m))
    = Workgroup_Size (settings m) /\
  Workgroups_Per_Step (settings (advances computeMain k m))
    = Workgroups_Per_Step (settings m) /\
  Total_Steps (settings (advances computeMain k m))
    = Total_Steps (settings m).
Proof.
  revert m; induction k as [| k IH]; intros m; [repeat split|].
  change (advances computeMain (S k) m)
    with (advances computeMain k (advance computeMain m)).
  destruct (IH (advance computeMain m)) as (A1 & A2 & A3 & A4 & A5).
  destruct (advance_configuration computeMain m)
    as (B1 & B2 & B3 & B4 & B5 & _).
  rewrite A1, A2, A3, A4, A5. auto.
Qed.

(** Within a session the local/global split can be read off the size limit
    as well as off the workgroup size [min (N / 2) L]. *)
Lemma size_limit_split (n L j : Z) :
  1 <= n -> 1 <= L -> 0 <= j <= n ->
  (2 ^ j >? Z.min (2 ^ n / 2) L * 2) = (2 ^ j >? L * 2).
Proof.
  intros Hn HL Hj.
  rewrite pow2_half by lia.
  pose proof (pow2_succ (n - 1) ltac:(lia)) as E.
  replace (n - 1 + 1) with n in E by lia.
  pose proof (pow2_le_mono j n ltac:(lia)).
  destruct (Z.gtb_spec (2 ^ j) (Z.min (2 ^ (n - 1)) L * 2));
    destruct (Z.gtb_spec (2 ^ j) (L * 2)); try reflexivity; lia.
Qed.

End Run.

(** ** The number of steps of a session *)

Section StepCount.
Variable computeMain :
  Z -> Z -> Z -> Z -> list Z -> list Z * Z -> list Z * Z.

(** What every state inside a cycle tells about the step it is about to
    execute. *)
Lemma in_cycle_facts (n W k j : Z) (m : Sample) :
  in_cycle n W k j m ->
  Next_Step (settings m) = stepAt W k j /\
  Next_Swap_Span (settings m) = 2 ^ j /\
  highestBlockHeight m = 2 ^ k /\
  highestBlockHeight m <> Total_Elements (settings m) * 2 /\
  (Next_Swap_Span (settings m) / 2 = 1 <-> j = 1) /\
  (Next_Swap_Span (settings m) = 2 <-> j = 1).
Proof.
  intros (HN & HW & Hj & Hk & Hp). destruct (position_inv _ _ _ _ _ Hp) as (Hstep & Hspan & Hh & Hidx).
  rewrite Hstep, Hspan, Hh, HN, <- pow2_double by lia.
  repeat split; try reflexivity.
  - intros E; apply pow2_inj in E; lia.
  - intros E. rewrite pow2_half in E by lia.
    destruct (Z.eq_dec j 1); [assumption|].
    pose proof (pow2_ge_2 (j - 1)); lia.
  - intros ->; reflexivity.
  - intros E. apply (pow2_inj j 1); [lia | lia | exact E].
  - intros ->; reflexivity.
Qed.

Lemma advance_records (m : Sample) :
  highestBlockHeight m <> Total_Elements (settings m) * 2 ->
  Step_Index (settings (advance computeMain m)) = Step_Index (settings m) + 1 /\
  Prev_Step (settings (advance computeMain m)) = Next_Step (settings m) /\
  Prev_Swap_Span (settings (advance computeMain m))
    = Next_Swap_Span (settings m).
Proof.
  intros Hh.
  destruct (Z.eq_dec (Next_Swap_Span (settings m) / 2) 1) as [E | E].
  - destruct (advance_cycle_end computeMain m Hh E) as (P & P1 & P2).
    repeat split; try assumption.
    change (Step_Index (settings (advance computeMain m)))
      with (pos_index (position (advance computeMain m))).
    rewrite P.
    destruct (_ =? _); [| destruct (_ >? _)]; reflexivity.
  - destruct (advance_disperse computeMain m Hh E) as (P & P1 & P2).
    repeat split; try assumption.
    change (Step_Index (settings (advance computeMain m)))
      with (pos_index (position (advance computeMain m))).
    rewrite P. reflexivity.
Qed.

Lemma finished_stays (n : Z) (m : Sample) (i : nat) :
  0 <= n ->
  finished n m ->
  finished n (advances computeMain i m) /\
  Prev_Step (settings (advances computeMain i m)) = Prev_Step (settings m) /\
  Prev_Swap_Span (settings (advances computeMain i m))
    = Prev_Swap_Span (settings m).
Proof.
  intros Hn. revert m; induction i as [| i IH]; intros m Hf.
  - split; [exact Hf | split; reflexivity].
  - change (advances computeMain (S i) m)
      with (advances computeMain i (advance computeMain m)).
    destruct Hf as (HN & Hp).
    assert (Hh : highestBlockHeight m = Total_Elements (settings m) * 2).
    { destruct (position_inv _ _ _ _ _ Hp) as (_ & _ & Hh & _).
      rewrite Hh, HN. apply pow2_double, Hn. }
    destruct (advance_blocked computeMain m Hh) as (P & P1 & P2 & _).
    destruct (advance_configuration computeMain m) as (CN & _).
    destruct (IH (advance computeMain m)) as (F & Q1 & Q2).
    + split; [rewrite CN; exact HN | rewrite P; exact Hp].
    + rewrite Q1, Q2, P1, P2. split; [exact F | split; reflexivity].
Qed.

(** While a session runs, the step index counts the steps taken. *)
Lemma session_index (draws : nat -> nat) (n L : Z) (m : Sample) :
  1 <= n -> 1 <= L ->
  forall i, (i <= Z.to_nat (triangle n))%nat ->
    Step_Index
      (settings (advances computeMain i (startSession draws (2 ^ n) L m)))
    = Z.of_nat i.
Proof.
  intros Hn HL.
  destruct (session_trace computeMain draws n L m Hn HL) as (_ & _ & _ & Hall).
  induction i as [| i IH]; intros Hi.
  - destruct (startSession_settings draws (2 ^ n) L m)
      as (_ & _ & _ & _ & _ & P & _).
    apply (position_inv _ _ _ _ _ P).
  - rewrite advances_succ.
    destruct (Hall i ltac:(lia)) as (k & j & Hin).
    destruct (in_cycle_facts n _ k j _ Hin) as (_ & _ & _ & Hh & _).
    destruct (advance_records _ Hh) as (E & _).
    rewrite E, IH by lia. lia.
Qed.

(** The trace of a session is determined by the array size and the size
    limit: after the [k - 1] cycles of heights [2 ^ 1] to [2 ^ (k - 1)]
    and [k - j] steps of the cycle of height [2 ^ k], the next step has
    span [2 ^ j] in that cycle. *)
Lemma session_position (draws : nat -> nat) (n L k j : Z) (m : Sample) :
  1 <= n -> 1 <= L -> 1 <= j <= k -> k <= n ->
  in_cycle n (Z.min (2 ^ n / 2) L) k j
    (advances computeMain (Z.to_nat (triangle (k - 1) + (k - j)))
       (startSession draws (2 ^ n) L m)).
Proof.
  intros Hn HL Hj Hk.
  destruct (session_trace computeMain draws n L m Hn HL) as (_ & _ & _ & Hall).
  pose proof (triangle_nonneg (k - 1) ltac:(lia)) as T0.
  pose proof (triangle_pred k) as Tk.
  pose proof (triangle_mono k n ltac:(lia)) as Tkn.
  set (i := Z.to_nat (triangle (k - 1) + (k - j))).
  assert (Hi : (i < Z.to_nat (triangle n))%nat) by (unfold i; lia).
  destruct (Hall i Hi) as (k' & j' & Hin).
  pose proof (session_index draws n L m Hn HL i ltac:(lia)) as Ei.
  assert (Hin' := Hin). destruct Hin' as (_ & _ & Hj' & Hk' & Hp).
  destruct (position_inv _ _ _ _ _ Hp) as (_ & _ & _ & Eidx).
  rewrite Ei in Eidx. unfold i in Eidx. rewrite Z2Nat.id in Eidx by lia.
  pose proof (triangle_pred k') as Tk'.
  assert (k' = k).
  { destruct (Z.lt_trichotomy k' k) as [Hlt | [E | Hgt]]; [| exact E |].
    - pose proof (triangle_mono k' (k - 1) ltac:(lia)). lia.
    - pose proof (triangle_mono k (k' - 1) ltac:(lia)). lia. }
  subst k'. assert (j' = j) by lia. subst j'. exact Hin.
Qed.

(** C3.  A session of [N = 2 ^ n] elements ([n >= 2]) under a size limit
    [2 ^ l <= N / 2] executes exactly [n * (n + 1) / 2] steps, [n] being
    [log2 N], before its next step becomes NONE: after that many steps the
    next step is NONE and the step index is that number, after fewer the
    next step is not NONE and the step index is the number of steps taken.
    The same number is what [getNumSteps] stored in ['Total Steps'] when
    the session started, and it stays there. *)
Theorem steps_until_NONE (draws : nat -> nat) (n l : Z) (m : Sample) :
  2 <= n -> 0 <= l <= n - 1 ->
  let N := 2 ^ n in
  let L := 2 ^ l in
  let s0 := startSession draws N L m in
  let total := Z.log2 N * (Z.log2 N + 1) / 2 in
  Next_Step (settings (advances computeMain (Z.to_nat total) s0)) = NONE /\
  Step_Index (settings (advances computeMain (Z.to_nat total) s0)) = total /\
  (forall i, (i < Z.to_nat total)%nat ->
     Next_Step (settings (advances computeMain i s0)) <> NONE /\
     Step_Index (settings (advances computeMain i s0)) = Z.of_nat i) /\
  Total_Steps (settings s0) = total /\
  Total_Steps (settings (advances computeMain (Z.to_nat total) s0)) = total.
Proof.
  intros Hn Hl N L s0 total.
  assert (HL : 1 <= L) by (pose proof (pow2_pos l); unfold L; lia).
  assert (Et : total = triangle n).
  { unfold total, N. rewrite Z.log2_pow2 by lia. reflexivity. }
  rewrite Et.
  destruct (session_trace computeMain draws n L m ltac:(lia) HL)
    as (F & _ & _ & Hall).
  fold N s0 in F, Hall.
  pose proof (session_index draws n L m ltac:(lia) HL) as Hidx.
  fold N s0 in Hidx.
  destruct F as (FN & Fp).
  destruct (position_inv _ _ _ _ _ Fp) as (Fstep & _ & _ & Fidx).
  destruct (startSession_settings draws N L m) as (_ & _ & _ & _ & HT & _).
  fold s0 in HT.
  destruct (advances_configuration computeMain (Z.to_nat (triangle n)) s0)
    as (_ & _ & _ & _ & CT).
  repeat split.
  - exact Fstep.
  - exact Fidx.
  - destruct (Hall i H) as (k & j & Hin).
    destruct (in_cycle_facts n _ k j _ Hin) as (E & _).
    rewrite E. apply stepAt_not_NONE.
  - apply Hidx. lia.
  - rewrite HT. unfold N. apply getNumSteps_pow2. lia.
  - rewrite CT, HT. unfold N. apply getNumSteps_pow2. lia.
Qed.

End StepCount.

Lemma steps_until_NONE_witness :
  Next_Step (settings (advances Demo.passThrough 6
    (startSession Demo.firstDraw 8 2 Demo.page))) = NONE /\
  Step_Index (settings (advances Demo.passThrough 6
    (startSession Demo.firstDraw 8 2 Demo.page))) = 6.
Proof.
  destruct (steps_until_NONE Demo.passThrough Demo.firstDraw 3 1 Demo.page
              ltac:(lia) ltac:(lia)) as (H1 & H2 & _).
  split; [exact H1 | exact H2].
Defined.

(** ** Merge cycles *)

Section Cycles.
Variable computeMain :
  Z -> Z -> Z -> Z -> list Z -> list Z * Z -> list Z * Z.

(** C10.  In a session of [N = 2 ^ n >= 4] elements under a size limit
    [2 ^ l <= N / 2], every executed step (the [i]-th, for [i] below the
    total [n * (n + 1) / 2]) has a span that is a power of two between 2
    and [N], never 1, and is recorded as the previous step.  The cycle ends
    (the block height doubles) exactly when the executed span is 2, that is
    when the halved span is 1; otherwise the block height is kept.  The
    step of span 2 is a DISPERSE_LOCAL step in every cycle but the first,
    whose only step is the FLIP_LOCAL of span 2 the session starts with.
    The last executed step is DISPERSE_LOCAL with span 2, it leaves the
    next step NONE, and nothing is executed after it. *)
Theorem span_of_executed_step (draws : nat -> nat) (n l : Z) (m : Sample) :
  2 <= n -> 0 <= l <= n - 1 ->
  let N := 2 ^ n in
  let L := 2 ^ l in
  let s0 := startSession draws N L m in
  let total := Z.to_nat (triangle n) in
  (forall i, (i < total)%nat ->
     let s := advances computeMain i s0 in
     let s' := advance computeMain s in
     Next_Step (settings s) <> NONE /\
     (exists j, 1 <= j <= n /\ Next_Swap_Span (settings s) = 2 ^ j) /\
     2 <= Next_Swap_Span (settings s) <= N /\
     Step_Index (settings s') = Step_Index (settings s) + 1 /\
     Prev_Step (settings s') = Next_Step (settings s) /\
     Prev_Swap_Span (settings s') = Next_Swap_Span (settings s) /\
     (Next_Swap_Span (settings s) = 2 ->
        highestBlockHeight s' = highestBlockHeight s * 2) /\
     (Next_Swap_Span (settings s) <> 2 ->
        highestBlockHeight s' = highestBlockHeight s) /\
     (Next_Swap_Span (settings s) = 2 ->
        (i = 0%nat /\ Next_Step (settings s) = FLIP_LOCAL) \/
        (i <> 0%nat /\ Next_Step (settings s) = DISPERSE_LOCAL))) /\
  (forall i, (total <= i)%nat ->
     let s := advances computeMain i s0 in
     Next_Step (settings s) = NONE /\
     Step_Index (settings s) = triangle n /\
     Prev_Step (settings s) = DISPERSE_LOCAL /\
     Prev_Swap_Span (settings s) = 2).
Proof.
  intros Hn Hl N L s0 total.
  assert (HL : 1 <= L) by (pose proof (pow2_pos l); unfold L; lia).
  destruct (session_trace computeMain draws n L m ltac:(lia) HL)
    as (F & P1 & P2 & Hall).
  fold N s0 total in F, P1, P2, Hall.
  split.
  - intros i Hi s s'.
    destruct (Hall i Hi) as (k & j & Hin). fold s in Hin.
    destruct (in_cycle_facts n _ k j s Hin)
      as (Estep & Espan & Eh & Hh & Hhalf & Htwo).
    destruct (advance_records computeMain s Hh) as (R1 & R2 & R3).
    assert (Hjk : 1 <= j <= k /\ k <= n) by (destruct Hin; tauto).
    split; [rewrite Estep; apply stepAt_not_NONE|].
    split; [exists j; split; [lia | exact Espan]|].
    split.
    { rewrite Espan. split; [apply pow2_ge_2; lia|].
      unfold N. apply pow2_le_mono; lia. }
    repeat split; try assumption.
    + intros E. apply Htwo in E. apply Hhalf in E.
      destruct (advance_cycle_end computeMain s Hh E) as (P & _).
      change (highestBlockHeight s')
        with (pos_height (position (advance computeMain s))).
      rewrite P. destruct (_ =? _); [| destruct (_ >? _)]; reflexivity.
    + intros E.
      assert (E' : Next_Swap_Span (settings s) / 2 <> 1) by tauto.
      destruct (advance_disperse computeMain s Hh E') as (P & _).
      change (highestBlockHeight s')
        with (pos_height (position (advance computeMain s))).
      rewrite P. reflexivity.
    + intros E. apply Htwo in E. subst j.
      pose proof (session_index computeMain draws n L m ltac:(lia) HL i
                    ltac:(unfold total in Hi; lia)) as Ei.
      fold N s0 s in Ei.
      destruct Hin as (_ & _ & _ & _ & Hp).
      destruct (position_inv _ _ _ _ _ Hp) as (_ & _ & _ & Eidx).
      rewrite Ei in Eidx. rewrite Estep. unfold stepAt, N.
      rewrite pow2_half by lia. change (2 ^ 1) with 2.
      pose proof (pow2_pos (n - 1) ltac:(lia)).
      assert (G : (2 >? Z.min (2 ^ (n - 1)) L * 2) = false)
        by (destruct (Z.gtb_spec 2 (Z.min (2 ^ (n - 1)) L * 2));
            [lia | reflexivity]).
      destruct (Z.eqb_spec 1 k) as [<- | Hk1].
      * left. change (2 ^ 1) with 2. rewrite G. split; [| reflexivity].
        change (triangle (1 - 1) + (1 - 1)) with 0 in Eidx. lia.
      * right. rewrite G. split; [| reflexivity].
        pose proof (triangle_pred (k - 1)).
        pose proof (triangle_nonneg (k - 1 - 1) ltac:(lia)). lia.
  - intros i Hi s.
    assert (Es : s = advances computeMain (i - total)
                       (advances computeMain total s0)).
    { unfold s. rewrite <- advances_add. f_equal. lia. }
    destruct (finished_stays computeMain n _ (i - total) ltac:(lia) F)
      as (F' & Q1 & Q2).
    rewrite <- Es in F', Q1, Q2.
    destruct F' as (_ & Fp).
    destruct (position_inv _ _ _ _ _ Fp) as (Fstep & _ & _ & Fidx).
    rewrite Q1, Q2, P1, P2.
    repeat split; try assumption.
    unfold stepAt. destruct (Z.eqb_spec 1 n); [lia|].
    change (2 ^ 1) with 2. unfold N.
    rewrite pow2_half by lia.
    pose proof (pow2_pos (n - 1) ltac:(lia)).
    destruct (Z.gtb_spec 2 (Z.min (2 ^ (n - 1)) L * 2)); [lia | reflexivity].
Qed.

(** C1, as the code has it.  In a session of [N = 2 ^ n] elements under
    size limit [L], a step executed with span 2 (its halved span is 1) ends
    the merge cycle: [highestBlockHeight] is doubled, and the next step is
    NONE with span 0 if the new height is [N * 2], FLIP_GLOBAL with the new
    height as span if that exceeds [L * 2], and FLIP_LOCAL with the new
    height as span otherwise.  For [N = 8] and [L = 8], step 0 is
    FLIP_LOCAL with span 2, and its execution makes the height 4 and the
    next step FLIP_LOCAL with span 4. *)
Theorem cycle_ends_after_span_two (draws : nat -> nat) (n L : Z) (m : Sample) :
  1 <= n -> 1 <= L ->
  let N := 2 ^ n in
  let s0 := startSession draws N L m in
  (forall i, (i < Z.to_nat (triangle n))%nat ->
     let s := advances computeMain i s0 in
     let hbh := highestBlockHeight s * 2 in
     Next_Swap_Span (settings s) = 2 ->
     position (advance computeMain s) =
       (if hbh =? N * 2
        then mkPosition NONE 0 hbh (Step_Index (settings s) + 1)
        else if hbh >? L * 2
        then mkPosition FLIP_GLOBAL hbh hbh (Step_Index (settings s) + 1)
        else mkPosition FLIP_LOCAL hbh hbh (Step_Index (settings s) + 1))) /\
  (n = 3 -> L = 8 ->
     position s0 = mkPosition FLIP_LOCAL 2 2 0 /\
     position (advance computeMain s0) = mkPosition FLIP_LOCAL 4 4 1).
Proof.
  intros Hn HL N s0.
  destruct (session_trace computeMain draws n L m Hn HL) as (_ & _ & _ & Hall).
  fold N s0 in Hall.
  assert (Hgen : forall i, (i < Z.to_nat (triangle n))%nat ->
     let s := advances computeMain i s0 in
     let hbh := highestBlockHeight s * 2 in
     Next_Swap_Span (settings s) = 2 ->
     position (advance computeMain s) =
       (if hbh =? N * 2
        then mkPosition NONE 0 hbh (Step_Index (settings s) + 1)
        else if hbh >? L * 2
        then mkPosition FLIP_GLOBAL hbh hbh (Step_Index (settings s) + 1)
        else mkPosition FLIP_LOCAL hbh hbh (Step_Index (settings s) + 1))).
  { intros i Hi s hbh Hspan.
    destruct (Hall i Hi) as (k & j & Hin). fold s in Hin.
    destruct (in_cycle_facts n _ k j s Hin)
      as (_ & _ & Eh & Hh & Hhalf & Htwo).
    assert (Hjk : 1 <= j <= k /\ k <= n) by (destruct Hin; tauto).
    assert (EN : Total_Elements (settings s) = N) by (destruct Hin; tauto).
    assert (EW : Workgroup_Size (settings s) = Z.min (2 ^ n / 2) L)
      by (destruct Hin; tauto).
    apply Htwo in Hspan. apply Hhalf in Hspan.
    destruct (advance_cycle_end computeMain s Hh Hspan) as (P & _).
    fold hbh in P. rewrite P, EN, EW.
    destruct (Z.eqb_spec hbh (N * 2)) as [E | E]; [reflexivity|].
    assert (Ehbh : hbh = 2 ^ (k + 1))
      by (unfold hbh; rewrite Eh, pow2_succ by lia; lia).
    assert (Hk : k + 1 <= n).
    { destruct (Z.eq_dec k n) as [-> | ?]; [| lia].
      exfalso. apply E. rewrite Ehbh. unfold N. rewrite pow2_succ by lia. lia. }
    rewrite Ehbh, size_limit_split by lia. reflexivity. }
  split; [exact Hgen|].
  intros -> ->.
  destruct (startSession_settings draws N 8 m) as (_ & _ & _ & _ & _ & P & _).
  fold s0 in P. split; [exact P|].
  assert (H0 : (0 < Z.to_nat (triangle 3))%nat) by (vm_compute; lia).
  destruct (position_inv _ _ _ _ _ P) as (_ & Esp & Eh & Ei).
  pose proof (Hgen 0%nat H0 Esp) as Q.
  change (advances computeMain 0 s0) with s0 in Q.
  rewrite Q, Eh, Ei. reflexivity.
Qed.

(** C4, as the code has it.  In a session of [N = 2 ^ n] elements under
    size limit [L], a step executed with a span [s] other than 2 (its
    halved span is not 1: the cycle is still dispersing) is followed, in
    the same cycle, by a step of span [s / 2], which is DISPERSE_GLOBAL if
    [s / 2 > L * 2] and DISPERSE_LOCAL otherwise. *)
Theorem disperse_continues_cycle (draws : nat -> nat) (n L : Z) (m : Sample) :
  1 <= n -> 1 <= L ->
  let N := 2 ^ n in
  let s0 := startSession draws N L m in
  forall i, (i < Z.to_nat (triangle n))%nat ->
    let s := advances computeMain i s0 in
    let span := Next_Swap_Span (settings s) in
    span <> 2 ->
    Z.even span = true /\
    position (advance computeMain s) =
      mkPosition
        (if span / 2 >? L * 2 then DISPERSE_GLOBAL else DISPERSE_LOCAL)
        (span / 2) (highestBlockHeight s) (Step_Index (settings s) + 1).
Proof.
  intros Hn HL N s0 i Hi s span Hspan.
  destruct (session_trace computeMain draws n L m Hn HL) as (_ & _ & _ & Hall).
  fold N s0 in Hall.
  destruct (Hall i Hi) as (k & j & Hin). fold s in Hin.
  destruct (in_cycle_facts n _ k j s Hin)
    as (_ & Espan & Eh & Hh & Hhalf & Htwo).
  fold span in Espan, Hhalf, Htwo.
  assert (Hjk : 1 <= j <= k /\ k <= n) by (destruct Hin; tauto).
  assert (EW : Workgroup_Size (settings s) = Z.min (2 ^ n / 2) L)
    by (destruct Hin; tauto).
  assert (E' : span / 2 <> 1) by tauto.
  destruct (advance_disperse computeMain s Hh E') as (P & _).
  fold span in P. rewrite P, EW.
  split.
  - rewrite Espan. replace j with (j - 1 + 1) by lia.
    rewrite pow2_succ by lia. rewrite Z.even_mul. reflexivity.
  - rewrite Espan, pow2_half, size_limit_split by lia. reflexivity.
Qed.

End Cycles.

(** ** The option lists *)

Lemma halvings_zero (fuel : nat) (low : Z) : 0 < low -> halvings fuel 0 low = [].
Proof.
  intros H. destruct fuel; [reflexivity|]. simpl.
  destruct (Z.leb_spec low 0); [lia | reflexivity].
Qed.

Lemma halvings_pow2 (low : Z) :
  0 < low ->
  forall (fuel : nat) (a x : Z),
    0 <= a -> In x (halvings fuel (2 ^ a) low) ->
    exists b, 0 <= b <= a /\ x = 2 ^ b /\ low <= x.
Proof.
  intros Hlow. induction fuel as [| fuel IH]; intros a x Ha Hin;
    [contradiction|].
  cbn [halvings] in Hin.
  destruct (Z.leb_spec low (2 ^ a)) as [Hle | _]; [| contradiction].
  destruct Hin as [<- | Hin].
  - exists a. repeat split; lia.
  - destruct (Z.eq_dec a 0) as [-> | Hnz].
    + change (2 ^ 0 / 2) with 0 in Hin.
      rewrite halvings_zero in Hin by assumption. contradiction.
    + rewrite pow2_half in Hin by lia.
      destruct (IH (a - 1) x ltac:(lia) Hin) as (b & Hb & E & Hx).
      exists b. repeat split; try assumption; lia.
Qed.

(** ** Invariants of the page *)

Section Page.
Variable maxInvocationsX : Z.
Variable computeMain :
  Z -> Z -> Z -> Z -> list Z -> list Z * Z -> list Z * Z.

Lemma frame_settled (m : Sample) : settled m -> settled (frame computeMain m).
Proof.
  destruct m as [st els hbh g]. destruct st. destruct g.
  unfold settled, frame, dispatches. fields.
  destruct executeStep0; fields.
  - destruct (Z.eqb_spec hbh (Total_Elements0 * 2)) as [E | E]; fields.
    + intros _ _. repeat split. exact E.
    + destruct (computeMain _ _ _ _ _ _) as [out sw].
      unfold sequence. fields.
      destruct (Next_Swap_Span0 / 2 =? 1);
        [destruct (Z.eqb_spec (hbh * 2) (Total_Elements0 * 2));
         [| destruct (hbh * 2 >? Workgroup_Size0 * 2)]
        | destruct (Next_Swap_Span0 / 2 >? Workgroup_Size0 * 2)];
        fields; intros _ H; try discriminate H.
      repeat split. assumption.
  - intros H. exact H.
Qed.

Lemma handle_settled (e : Event) (m : Sample) :
  settled m -> settled (handle computeMain e m).
Proof.
  destruct e; cbn [handle]; try apply frame_settled;
    destruct m as [st els hbh g]; destruct st; destruct g;
    unfold settled; handlers; intros H; try exact H; discriminate.
Qed.

Lemma reachable_settled (m : Sample) :
  reachable maxInvocationsX computeMain m -> settled m.
Proof.
  induction 1 as [draws | e m _ IH _].
  - intros H. discriminate H.
  - apply handle_settled, IH.
Qed.

Lemma handle_configured (e : Event) (m : Sample) :
  configured m -> configured (handle computeMain e m).
Proof.
  destruct e; cbn [handle].
  1-6: destruct m as [st els hbh g]; destruct st; destruct g;
       unfold configured; handlers; intros H; try exact H; split; reflexivity.
  unfold configured.
  destruct (frame_configuration computeMain m) as (E1 & E2 & E3 & E4 & _).
  rewrite E1, E2, E3, E4. trivial.
Qed.

Lemma initial_configured (draws : nat -> nat) :
  0 < maxInvocationsX -> configured (initialSample maxInvocationsX draws).
Proof.
  intros HM. unfold configured, initialSample, initialSettings, maxElements.
  fields. split.
  - unfold ceil_div.
    rewrite (Z.mul_comm maxInvocationsX 32), (Z.mul_comm maxInvocationsX 2).
    rewrite Z.div_mul_cancel_r by lia.
    assert (E : (- (32 * maxInvocationsX - 1)) / (2 * maxInvocationsX) = -16).
    { symmetry. apply (Z.div_unique_pos _ _ _ 1); lia. }
    rewrite E. reflexivity.
  - rewrite Z.min_r; [reflexivity|].
    apply Z.div_le_lower_bound; lia.
Qed.

Lemma reachable_configured (m : Sample) :
  0 < maxInvocationsX ->
  reachable maxInvocationsX computeMain m -> configured m.
Proof.
  intros HM. induction 1 as [draws | e m _ IH _].
  - apply initial_configured, HM.
  - apply handle_configured, IH.
Qed.

(** [Math.ceil (a / b)] is the least integer [c] with [a <= c * b]. *)
Lemma ceil_div_spec (a b : Z) :
  0 < b -> (ceil_div a b - 1) * b < a <= ceil_div a b * b.
Proof.
  intros Hb. unfold ceil_div.
  pose proof (Z.div_mod (- a) b ltac:(lia)).
  pose proof (Z.mod_pos_bound (- a) b Hb).
  nia.
Qed.

Lemma frame_blocked (m : Sample) :
  highestBlockHeight m = Total_Elements (settings m) * 2 ->
  position (frame computeMain m) = position m /\
  Prev_Step (settings (frame computeMain m)) = Prev_Step (settings m) /\
  Prev_Swap_Span (settings (frame computeMain m))
    = Prev_Swap_Span (settings m) /\
  elements (frame computeMain m) =
    (if executeStep (settings m)
     then firstn (Z.to_nat (Total_Elements (settings m)))
            (elementsStagingBuffer (gpu m))
     else elements m) /\
  Total_Swaps (settings (frame computeMain m)) =
    (if executeStep (settings m)
     then atomicSwapsStagingBuffer (gpu m)
     else Total_Swaps (settings m)).
Proof.
  destruct m as [st els hbh g]. destruct st. fields. intros ->.
  unfold frame, dispatches, position. fields.
  rewrite Z.eqb_refl.
  destruct executeStep0; fields; repeat split.
Qed.

(** What a dispatching frame hands to the compute shader. *)
Lemma frame_dispatch (m : Sample) :
  dispatches m = true ->
  elementsOutputBuffer (gpu (frame computeMain m)) =
    fst (computeMain (computePipeline (gpu m))
           (Workgroups_Per_Step (settings m))
           (StepEnum (Next_Step (settings m)))
           (Next_Swap_Span (settings m))
           (writeBuffer (elementsInputBuffer (gpu m)) (elements m))
           (elementsOutputBuffer (gpu m), atomicSwapsOutputBuffer (gpu m))).
Proof.
  destruct m as [st els hbh g]. destruct st. destruct g.
  unfold frame. intros ->. fields.
  destruct (computeMain _ _ _ _ _ _) as [out sw].
  destruct (sequence _ _) as [st' hbh'].
  destruct executeStep0; reflexivity.
Qed.

Lemma frame_idle (m : Sample) :
  executeStep (settings m) = false ->
  position (frame computeMain m) = position m /\
  Prev_Step (settings (frame computeMain m)) = Prev_Step (settings m) /\
  Prev_Swap_Span (settings (frame computeMain m))
    = Prev_Swap_Span (settings m) /\
  elements (frame computeMain m) = elements m.
Proof.
  destruct m as [st els hbh g]. destruct st. fields. intros ->.
  unfold frame, dispatches, position. fields. repeat split.
Qed.

Lemma executeSortStepOnChange_id (m : Sample) :
  executeStep (settings m) = true -> executeSortStepOnChange m = m.
Proof.
  destruct m as [st els hbh g]. destruct st. fields. intros ->. reflexivity.
Qed.

Lemma scheduled_ext (m m' : Sample) :
  Total_Elements (settings m') = Total_Elements (settings m) ->
  position m' = position m ->
  scheduled m -> scheduled m'.
Proof.
  intros EN Ep (n & Hn & HN & H).
  destruct (position_inv m' _ _ _ _ Ep) as (E1 & E2 & E3 & _).
  exists n. rewrite EN, E1, E2, E3. auto.
Qed.

Lemma scheduled_start (m : Sample) (n : Z) :
  2 <= n ->
  Total_Elements (settings m) = 2 ^ n ->
  position m = mkPosition FLIP_LOCAL 2 2 0 ->
  scheduled m.
Proof.
  intros Hn HN Hp. destruct (position_inv m _ _ _ _ Hp) as (E1 & E2 & E3 & _).
  exists n. split; [exact Hn|]. split; [exact HN|]. left. exists 1, 1.
  rewrite E1, E2, E3. repeat split; try lia; discriminate.
Qed.

Lemma advance_scheduled (m : Sample) :
  scheduled m -> scheduled (advance computeMain m).
Proof.
  intros Hs. assert (Hs' := Hs).
  destruct Hs' as (n & Hn & HN & [(k & j & Hj & Hk & Hstep & Hspan & Hh)
                                | (Hstep & Hspan & Hh)]).
  - assert (Hd : highestBlockHeight m <> Total_Elements (settings m) * 2).
    { rewrite Hh, HN, <- pow2_double by lia.
      intros E; apply pow2_inj in E; lia. }
    destruct (advance_configuration computeMain m) as (CN & _).
    exists n. split; [exact Hn|]. split; [rewrite CN; exact HN|].
    destruct (Z.eq_dec j 1) as [-> | Hj1].
    + destruct (advance_cycle_end computeMain m Hd) as (P & _).
      { rewrite Hspan. reflexivity. }
      rewrite Hh, HN, <- !pow2_double in P by lia.
      destruct (Z.eqb_spec (2 ^ (k + 1)) (2 ^ (n + 1))) as [E | E].
      * apply pow2_inj in E; try lia.
        destruct (position_inv _ _ _ _ _ P) as (E1 & E2 & E3 & _).
        right. rewrite E1, E2, E3. replace k with n by lia. auto.
      * assert (k + 1 <= n).
        { destruct (Z.eq_dec k n) as [-> | ?]; [contradiction E; reflexivity | lia]. }
        left. exists (k + 1), (k + 1).
        destruct (2 ^ (k + 1) >? Workgroup_Size (settings m) * 2);
          destruct (position_inv _ _ _ _ _ P) as (E1 & E2 & E3 & _);
          rewrite E1, E2, E3; repeat split; try lia; discriminate.
    + destruct (advance_disperse computeMain m Hd) as (P & _).
      { rewrite Hspan, pow2_half by lia. pose proof (pow2_ge_2 (j - 1)). lia. }
      rewrite Hspan, pow2_half, Hh in P by lia.
      left. exists k, (j - 1).
      destruct (2 ^ (j - 1) >? Workgroup_Size (settings m) * 2);
        destruct (position_inv _ _ _ _ _ P) as (E1 & E2 & E3 & _);
        rewrite E1, E2, E3; repeat split; try lia; discriminate.
  - destruct (advance_blocked computeMain m) as (P & _).
    { rewrite Hh, HN. apply pow2_double. lia. }
    destruct (advance_configuration computeMain m) as (CN & _).
    apply (scheduled_ext m); assumption.
Qed.

Lemma frame_scheduled (m : Sample) :
  scheduled m -> scheduled (frame computeMain m).
Proof.
  intros Hs. destruct (executeStep (settings m)) eqn:Ex.
  - rewrite <- (executeSortStepOnChange_id m Ex).
    apply advance_scheduled, Hs.
  - destruct (frame_idle m Ex) as (P & _).
    destruct (frame_configuration computeMain m) as (CN & _).
    apply (scheduled_ext m); assumption.
Qed.

Lemma offered_total_elements (mx N : Z) :
  0 <= mx -> In N (totalElementOptions (2 ^ mx)) ->
  exists n, 2 <= n /\ N = 2 ^ n.
Proof.
  intros Hmx HN. unfold totalElementOptions, maxElements in HN.
  change 32 with (2 ^ 5) in HN. rewrite <- Z.pow_add_r in HN by lia.
  apply halvings_pow2 in HN; [| lia | lia].
  destruct HN as (a & Ha & -> & HN). exists a. split; [| reflexivity].
  destruct (Z.le_gt_cases 2 a) as [? | Hlt]; [assumption|].
  pose proof (pow2_le_mono a 1 ltac:(lia)) as Hle.
  change (2 ^ 1) with 2 in Hle. lia.
Qed.

Lemma handle_scheduled (e : Event) (m : Sample) :
  is_pow2 maxInvocationsX -> offered maxInvocationsX e ->
  scheduled m -> scheduled (handle computeMain e m).
Proof.
  intros (mx & Hmx & ->) He Hs.
  destruct e as [draws N | L | | draws | | c |]; cbn [handle offered] in *.
  - destruct (offered_total_elements mx N Hmx He) as (n & Hn & ->).
    apply (scheduled_start _ n Hn);
      destruct m as [st els hbh g]; destruct st; unfold position; handlers;
      reflexivity.
  - apply (scheduled_ext m); [| | exact Hs];
      destruct m as [st els hbh g]; destruct st; unfold position; handlers;
      reflexivity.
  - apply (scheduled_ext m); [| | exact Hs];
      destruct m as [st els hbh g]; destruct st; unfold position; handlers;
      reflexivity.
  - destruct Hs as (n & Hn & HN & _).
    apply (scheduled_start _ n Hn); [rewrite <- HN |];
      destruct m as [st els hbh g]; destruct st; unfold position; handlers;
      reflexivity.
  - apply (scheduled_ext m); [| | exact Hs];
      destruct m as [st els hbh g]; destruct st; unfold position; handlers;
      reflexivity.
  - apply (scheduled_ext m); [| | exact Hs];
      destruct m as [st els hbh g]; destruct st; unfold position; handlers;
      reflexivity.
  - apply frame_scheduled, Hs.
Qed.

(** On every state of the page, the spans and block heights are powers of
    two: the divisions by two that [frame] and [resetExecutionInformation]
    perform are exact, and the span is 0 only when the next step is NONE. *)
Lemma reachable_scheduled (m : Sample) :
  is_pow2 maxInvocationsX ->
  reachable maxInvocationsX computeMain m -> scheduled m.
Proof.
  intros HM. induction 1 as [draws | e m _ IH He].
  - destruct HM as (mx & Hmx & ->).
    apply (scheduled_start _ (mx + 5)); [lia | | reflexivity].
    unfold initialSample, initialSettings, maxElements. fields.
    rewrite Z.pow_add_r by lia. reflexivity.
  - apply handle_scheduled; assumption.
Qed.

(** The sessions the statements above trace are states of the page: a
    session is started by the two drop-downs and advanced by the button and
    the animation frame. *)
Lemma reachable_session (draws : nat -> nat) (N L : Z) (k : nat) (m : Sample) :
  reachable maxInvocationsX computeMain m ->
  In N (totalElementOptions maxInvocationsX) ->
  In L (sizeLimitOptions maxInvocationsX) ->
  reachable maxInvocationsX computeMain
    (advances computeMain k (startSession draws N L m)).
Proof.
  intros Hr HN HL.
  assert (H0 : reachable maxInvocationsX computeMain (startSession draws N L m)).
  { apply (reachable_handle _ _ (SelectTotalElements draws N)); [| exact HN].
    apply (reachable_handle _ _ (SelectSizeLimit L)); [exact Hr | exact HL]. }
  revert H0. generalize (startSession draws N L m) as s.
  induction k as [| k IH]; intros s Hs; [exact Hs|].
  apply (IH (advance computeMain s)).
  apply (reachable_handle _ _ AnimationFrame); [| exact I].
  apply (reachable_handle _ _ ExecuteSortStep); [exact Hs | exact I].
Qed.

End Page.

(** ** Properties of every state of the page *)

Section PageProperties.
Variable maxInvocationsX : Z.
Variable computeMain :
  Z -> Z -> Z -> Z -> list Z -> list Z * Z -> list Z * Z.

(** C7.  On every state the page can reach (on a device whose limit is a
    power of two, so that the drop-downs offer integer sizes) in which the
    next step is NONE, advancing (by the button, or by a tick of the sort
    timer, followed by a frame) changes nothing of the session: next step,
    next span, step index, [highestBlockHeight], the previous step and span,
    the swap total and the element array are what they were, and the span
    is the terminal 0.  [frame] is a total function: there is no failing
    path. *)
Theorem advance_at_NONE_is_noop (m : Sample) (e : Event) :
  is_pow2 maxInvocationsX ->
  reachable maxInvocationsX computeMain m ->
  Next_Step (settings m) = NONE ->
  e = ExecuteSortStep \/ e = IntervalTick ->
  let m' := frame computeMain (handle computeMain e m) in
  Next_Step (settings m') = NONE /\
  Next_Swap_Span (settings m') = Next_Swap_Span (settings m) /\
  Step_Index (settings m') = Step_Index (settings m) /\
  highestBlockHeight m' = highestBlockHeight m /\
  elements m' = elements m /\
  Prev_Step (settings m') = Prev_Step (settings m) /\
  Prev_Swap_Span (settings m') = Prev_Swap_Span (settings m) /\
  Total_Swaps (settings m') = Total_Swaps (settings m) /\
  Next_Swap_Span (settings m) = 0.
Proof.
  intros HM Hr Hnone He m'.
  assert (Hzero : Next_Swap_Span (settings m) = 0).
  { destruct (reachable_scheduled _ _ m HM Hr)
      as (n & _ & _ & [(k & j & _ & _ & Hstep & _) | (_ & Hspan & _)]);
      [contradiction | exact Hspan]. }
  destruct (reachable_settled _ _ m Hr Hnone) as (Hh & Hel & Hsw).
  set (m1 := handle computeMain e m) in *.
  assert (E1 : position m1 = position m /\
               Prev_Step (settings m1) = Prev_Step (settings m) /\
               Prev_Swap_Span (settings m1) = Prev_Swap_Span (settings m) /\
               Total_Elements (settings m1) = Total_Elements (settings m) /\
               gpu m1 = gpu m /\
               executeStep (settings m1) = true).
  { unfold m1. destruct m as [st els hbh g]; destruct st.
    destruct He as [-> | ->]; cbn [handle]; unfold position; handlers;
      repeat split. }
  destruct E1 as (Ep & Ep1 & Ep2 & EN & Eg & Ex).
  destruct (position_inv m1 _ _ _ _ Ep) as (_ & _ & Hh1 & _).
  destruct (frame_blocked computeMain m1) as (P & P1 & P2 & P3 & P4).
  { rewrite Hh1, EN. exact Hh. }
  fold m' in P, P1, P2, P3, P4.
  rewrite Ex, EN, Eg in P3. rewrite Ex, Eg in P4. rewrite Ep in P.
  destruct (position_inv m' _ _ _ _ P) as (Q1 & Q2 & Q3 & Q4).
  rewrite Q1, Q2, Q3, Q4, P1, P2, P3, P4, Ep1, Ep2, Hnone, <- Hel, <- Hsw.
  repeat split. exact Hzero.
Qed.

(** C9.  On every state the page can reach (on a device whose limit is a
    power of two), the number of workgroups a step dispatches is
    [Math.ceil ((N - 1) / (L * 2))] for the current array size [N] and size
    limit [L]: the least integer [c] with [N - 1 <= c * (L * 2)].  It is what
    a dispatching [frame] hands to the shader, with the step type and the
    span, and a frame leaves it alone.  For [N = 4], [L = 2] it is 1, at the
    start of the session and after any number of steps. *)
Theorem workgroups_per_step_is_ceiling (m : Sample) :
  is_pow2 maxInvocationsX ->
  reachable maxInvocationsX computeMain m ->
  let N := Total_Elements (settings m) in
  let L := Size_Limit (settings m) in
  let c := Workgroups_Per_Step (settings m) in
  c = ceil_div (N - 1) (L * 2) /\
  (0 < L -> (c - 1) * (L * 2) < N - 1 <= c * (L * 2)) /\
  (dispatches m = true ->
   elementsOutputBuffer (gpu (frame computeMain m)) =
     fst (computeMain (computePipeline (gpu m))
            (ceil_div (N - 1) (L * 2))
            (StepEnum (Next_Step (settings m)))
            (Next_Swap_Span (settings m))
            (writeBuffer (elementsInputBuffer (gpu m)) (elements m))
            (elementsOutputBuffer (gpu m), atomicSwapsOutputBuffer (gpu m)))) /\
  Workgroups_Per_Step (settings (frame computeMain m)) = c /\
  (forall draws k,
     Workgroups_Per_Step
       (settings (advances computeMain k (startSession draws 4 2 m))) = 1).
Proof.
  intros HM Hr N L c.
  assert (HM' : 0 < maxInvocationsX)
    by (destruct HM as (mx & Hmx & ->); apply pow2_pos, Hmx).
  destruct (reachable_configured _ _ m HM' Hr) as (Hc & _).
  fold N L c in Hc.
  split; [exact Hc|]. split.
  - intros HL. rewrite Hc. apply ceil_div_spec. lia.
  - split; [| split].
    + intros Hd. rewrite <- Hc. apply frame_dispatch, Hd.
    + apply (frame_configuration computeMain m).
    + intros draws k.
      destruct (advances_configuration computeMain k
                  (startSession draws 4 2 m)) as (_ & _ & _ & E & _).
      destruct (startSession_settings draws 4 2 m) as (_ & _ & _ & E' & _).
      rewrite E, E'. reflexivity.
Qed.

End PageProperties.

(** ** Session creation *)

(** C6, as the code has it.  Session creation rejects nothing: there is no
    configuration error.  On a device whose limit is a power of two, the
    drop-downs offer only powers of two (array sizes from 4, size limits from
    2), and every offered pair is accepted, a size limit above half the array
    size included: the session starts at step 0 with next step FLIP_LOCAL of
    span 2, and its workgroup size is the smaller of half the array size and
    the size limit. *)
Theorem createSession_accepts (mx : Z) (draws : nat -> nat) (N L : Z)
    (m : Sample) :
  0 <= mx ->
  In N (totalElementOptions (2 ^ mx)) ->
  In L (sizeLimitOptions (2 ^ mx)) ->
  (is_pow2 N /\ 4 <= N) /\
  (is_pow2 L /\ 2 <= L) /\
  exists s,
    createSession draws N L m = Session s /\
    Total_Elements (settings s) = N /\
    Size_Limit (settings s) = L /\
    Workgroup_Size (settings s) = Z.min (N / 2) L /\
    position s = mkPosition FLIP_LOCAL 2 2 0.
Proof.
  intros Hmx HN HL.
  unfold totalElementOptions, maxElements in HN.
  change 32 with (2 ^ 5) in HN. rewrite <- Z.pow_add_r in HN by lia.
  apply halvings_pow2 in HN; [| lia | lia].
  apply halvings_pow2 in HL; [| lia | lia].
  destruct HN as (a & Ha & -> & HN). destruct HL as (b & Hb & -> & HL).
  split; [split; [exists a; split; [lia | reflexivity] | exact HN]|].
  split; [split; [exists b; split; [lia | reflexivity] | exact HL]|].
  exists (startSession draws (2 ^ a) (2 ^ b) m).
  destruct (startSession_settings draws (2 ^ a) (2 ^ b) m)
    as (E1 & E2 & E3 & _ & _ & E4 & _).
  split; [reflexivity|]. auto.
Qed.

Lemma createSession_accepts_witness :
  exists s,
    createSession Demo.firstDraw 4 256 Demo.page = Session s /\
    Workgroup_Size (settings s) = 2.
Proof.
  assert (HN : In 4 (totalElementOptions (2 ^ 8)))
    by (vm_compute; repeat (first [left; reflexivity | right])).
  assert (HL : In 256 (sizeLimitOptions (2 ^ 8)))
    by (vm_compute; repeat (first [left; reflexivity | right])).
  destruct (createSession_accepts 8 Demo.firstDraw 4 256 Demo.page
              ltac:(lia) HN HL) as (_ & _ & s & E & _ & _ & W & _).
  exists s. split; [exact E | exact W].
Defined.

(** C6 fails as stated: on a device of limit 256 the drop-downs offer 4
    elements together with size limit 256, which exceeds half the array
    size, and the configuration is not rejected. *)
Lemma oversized_size_limit_is_accepted :
  In 4 (totalElementOptions 256) /\
  In 256 (sizeLimitOptions 256) /\
  4 / 2 < 256 /\
  createSession Demo.firstDraw 4 256 Demo.page <> ConfigurationError.
Proof.
  split; [vm_compute; repeat (first [left; reflexivity | right])|].
  split; [vm_compute; repeat (first [left; reflexivity | right])|].
  split; [reflexivity | discriminate].
Qed.

(** ** The disperse pairing in the predictor *)

(** With next step DISPERSE_LOCAL and a valid span [h], the predictor pairs
    [i] with [i + h / 2] in the lower half of its block and with [i - h / 2]
    in the upper half. *)
Lemma disperse_local_partner (N h i : Z) :
  valid_span N h -> 0 <= i < N ->
  swappedIndex DISPERSE_LOCAL h i =
    (if i mod h <? h / 2 then i + h / 2 else i - h / 2) /\
  0 <= swappedIndex DISPERSE_LOCAL h i < N.
Proof.
  intros Hv Hi. destruct (valid_span_even N h Hv) as (a & Ha & ->).
  destruct Hv as (_ & Hdiv).
  split.
  - rewrite disperse_formula by lia.
    replace (2 * a / 2) with a by (rewrite Z.mul_comm, Z.div_mul; lia).
    reflexivity.
  - apply (same_block_in_range N (2 * a) i); try assumption; try lia.
    + apply disperse_nonneg; lia.
    + apply (disperse_block a i); lia.
Qed.

Lemma hoveredCellOnChange_spec (c : Z) (m : Sample) :
  Hovered_Cell (settings (hoveredCellOnChange c m)) = c /\
  Swapped_Cell (settings (hoveredCellOnChange c m)) =
    swappedIndex (Next_Step (settings m)) (Next_Swap_Span (settings m)) c.
Proof.
  destruct m as [st els hbh g]; destruct st. handlers. split; reflexivity.
Qed.

(** C2, where the code departs from it.  In a session of 16 elements under
    size limit 2 the eighth step is DISPERSE_GLOBAL with span 8.  Hovering
    cell 0 then stores 0 as the swapped cell, the hovered cell itself, as the
    predictor does for every span and cell under DISPERSE_GLOBAL; the
    disperse pairing, which the predictor computes under DISPERSE_LOCAL,
    gives cell 4 (and 3 for cell 1 at span 4). *)
Theorem disperse_global_partner_missing
    (computeMain : Z -> Z -> Z -> Z -> list Z -> list Z * Z -> list Z * Z)
    (draws : nat -> nat) (m : Sample) :
  let s := advances computeMain 7 (startSession draws 16 2 m) in
  Next_Step (settings s) = DISPERSE_GLOBAL /\
  Next_Swap_Span (settings s) = 8 /\
  Swapped_Cell (settings (hoveredCellOnChange 0 s)) = 0 /\
  0 mod 8 < 8 / 2 /\
  0 + 8 / 2 = 4 /\
  (forall h i, swappedIndex DISPERSE_GLOBAL h i = i) /\
  swappedIndex DISPERSE_LOCAL 8 0 = 4 /\
  swappedIndex DISPERSE_LOCAL 4 1 = 3.
Proof.
  intros s.
  destruct (session_position computeMain draws 4 2 4 3 m
              ltac:(lia) ltac:(lia) ltac:(lia) ltac:(lia)) as (_ & _ & _ & _ & P).
  change (advances computeMain (Z.to_nat (triangle (4 - 1) + (4 - 3)))
            (startSession draws (2 ^ 4) 2 m)) with s in P.
  destruct (position_inv _ _ _ _ _ P) as (E1 & E2 & _).
  destruct (hoveredCellOnChange_spec 0 s) as (_ & E3).
  rewrite E3, E1, E2.
  repeat split.
Qed.

(** ** Where the step sequence differs from a span-1 ending *)

(** C1 fails as stated: with 8 elements and size limit 8, step 0 is
    FLIP_LOCAL with span 2, and the step after it is FLIP_LOCAL with span 4
    in a cycle of height 4, not DISPERSE_LOCAL with span 1. *)
Lemma no_span_one_step_for_8_elements :
  let s0 := startSession Demo.firstDraw 8 8 Demo.page in
  let s1 := advance Demo.passThrough s0 in
  position s0 = mkPosition FLIP_LOCAL 2 2 0 /\
  position s1 = mkPosition FLIP_LOCAL 4 4 1 /\
  ~ (Next_Step (settings s1) = DISPERSE_LOCAL /\
     Next_Swap_Span (settings s1) = 1).
Proof.
  split; [reflexivity|]. split; [reflexivity|].
  intros [H _]. change (FLIP_LOCAL = DISPERSE_LOCAL) in H. discriminate H.
Qed.

(** C4 fails as stated: with 8 elements and size limit 4, the first step is
    executed with span 2, which is not 1, and is followed by FLIP_LOCAL with
    span 4, not by a disperse step of span 2 / 2. *)
Lemma span_two_is_followed_by_a_flip :
  let s0 := startSession Demo.firstDraw 8 4 Demo.page in
  let s1 := advance Demo.passThrough s0 in
  Next_Swap_Span (settings s0) = 2 /\
  2 <> 1 /\
  position s1 = mkPosition FLIP_LOCAL 4 4 1 /\
  Next_Swap_Span (settings s1) <> 2 / 2 /\
  Next_Step (settings s1) <> DISPERSE_LOCAL /\
  Next_Step (settings s1) <> DISPERSE_GLOBAL.
Proof.
  split; [reflexivity|]. split; [discriminate|]. split; [reflexivity|].
  split; [| split]; intros H;
    [change (4 = 1) in H | change (FLIP_LOCAL = DISPERSE_LOCAL) in H
     | change (FLIP_LOCAL = DISPERSE_GLOBAL) in H]; discriminate H.
Qed.

(** ** Instances *)

Lemma span_of_executed_step_witness :
  let s := advances Demo.passThrough 6
             (startSession Demo.firstDraw 8 2 Demo.page) in
  Next_Step (settings s) = NONE /\
  Prev_Step (settings s) = DISPERSE_LOCAL /\
  Prev_Swap_Span (settings s) = 2.
Proof.
  destruct (span_of_executed_step Demo.passThrough Demo.firstDraw 3 1 Demo.page
              ltac:(lia) ltac:(lia)) as (_ & H).
  destruct (H 6%nat (Nat.le_refl 6)) as (H1 & _ & H2 & H3).
  split; [exact H1 | split; [exact H2 | exact H3]].
Defined.

Lemma cycle_ends_after_span_two_witness :
  position (advance Demo.passThrough
              (startSession Demo.firstDraw 8 8 Demo.page))
  = mkPosition FLIP_LOCAL 4 4 1.
Proof.
  destruct (cycle_ends_after_span_two Demo.passThrough Demo.firstDraw 3 8
              Demo.page ltac:(lia) ltac:(lia)) as (_ & H).
  exact (proj2 (H eq_refl eq_refl)).
Defined.

Lemma disperse_continues_cycle_witness :
  position (advance Demo.passThrough
              (advances Demo.passThrough 4
                 (startSession Demo.firstDraw 8 2 Demo.page)))
  = mkPosition DISPERSE_LOCAL 2 8 5.
Proof.
  assert (Hi : (4 < Z.to_nat (triangle 3))%nat) by (vm_compute; lia).
  assert (Hspan : Next_Swap_Span
            (settings (advances Demo.passThrough 4
                         (startSession Demo.firstDraw (2 ^ 3) 2 Demo.page)))
          <> 2) by (lazy; discriminate).
  exact (proj2 (disperse_continues_cycle Demo.passThrough Demo.firstDraw 3 2
                  Demo.page ltac:(lia) ltac:(lia) 4%nat Hi Hspan)).
Defined.

Lemma reachable_handles (maxInvocationsX : Z)
    (computeMain : Z -> Z -> Z -> Z -> list Z -> list Z * Z -> list Z * Z)
    (es : list Event) :
  forall m,
    reachable maxInvocationsX computeMain m ->
    Forall (offered maxInvocationsX) es ->
    reachable maxInvocationsX computeMain (handles computeMain es m).
Proof.
  induction es as [| e es IH]; intros m Hr Hall; [exact Hr|].
  inversion Hall as [| ? ? He Hes]; subst.
  apply IH; [| exact Hes]. apply reachable_handle; assumption.
Qed.

Lemma advance_at_NONE_is_noop_witness :
  let m :=
    handles Demo.passThrough
      [SelectTotalElements Demo.firstDraw 4;
       ExecuteSortStep; AnimationFrame;
       ExecuteSortStep; AnimationFrame;
       ExecuteSortStep; AnimationFrame] Demo.page in
  let m' := frame Demo.passThrough (handle Demo.passThrough IntervalTick m) in
  Next_Step (settings m) = NONE /\
  Step_Index (settings m') = 3 /\
  elements m' = elements m.
Proof.
  intros m m'.
  assert (Hr : reachable 256 Demo.passThrough m).
  { apply reachable_handles; [apply reachable_initial|].
    apply Forall_cons;
      [vm_compute; repeat (first [left; reflexivity | right])|].
    repeat (apply Forall_cons; [exact I|]). apply Forall_nil. }
  assert (Hnone : Next_Step (settings m) = NONE) by reflexivity.
  assert (HM : is_pow2 256) by (exists 8; split; [lia | reflexivity]).
  destruct (advance_at_NONE_is_noop 256 Demo.passThrough m IntervalTick
              HM Hr Hnone (or_intror eq_refl)) as (_ & _ & H3 & _ & H5 & _).
  split; [exact Hnone|]. split; [| exact H5].
  exact (eq_trans H3 eq_refl).
Defined.

Lemma workgroups_per_step_is_ceiling_witness :
  Workgroups_Per_Step (settings Demo.page) = 16 /\
  Workgroups_Per_Step
    (settings (advances Demo.passThrough 2
                 (startSession Demo.firstDraw 4 2 Demo.page))) = 1.
Proof.
  assert (HM : is_pow2 256) by (exists 8; split; [lia | reflexivity]).
  destruct (workgroups_per_step_is_ceiling 256 Demo.passThrough Demo.page
              HM (reachable_initial 256 Demo.passThrough Demo.firstDraw))
    as (H1 & _ & _ & _ & H4).
  split; [exact H1 | exact (H4 Demo.firstDraw 2%nat)].
Defined.

(** * Further properties of the sample *)

(** ** The shuffle *)

Lemma length_list_set (l : list Z) (i : nat) (v : Z) :
  length (list_set l i v) = length l.
Proof.
  revert i; induction l as [| x t IH]; intros [| i]; simpl; auto.
Qed.

Lemma length_swap_cells (l : list Z) (i j : nat) :
  length (swap_cells l i j) = length l.
Proof. unfold swap_cells. rewrite !length_list_set. reflexivity. Qed.

(** Writing [x] over cell [j] and putting the old content in front keeps the
    values. *)
Lemma list_set_exchange (x : Z) (t : list Z) :
  forall j, (j < length t)%nat ->
    Permutation (x :: t) (nth j t 0 :: list_set t j x).
Proof.
  induction t as [| y t IH]; intros [| j] Hj; simpl in *; try lia.
  - apply perm_swap.
  - apply Permutation_trans with (y :: x :: t); [apply perm_swap|].
    apply Permutation_trans with (y :: nth j t 0 :: list_set t j x).
    + apply perm_skip, IH. lia.
    + apply perm_swap.
Qed.

Lemma list_set_same (l : list Z) :
  forall i, list_set l i (nth i l 0) = l.
Proof.
  induction l as [| x t IH]; intros [| i]; simpl; try reflexivity.
  rewrite IH. reflexivity.
Qed.

Lemma swap_cells_permutation (l : list Z) :
  forall i j, (i < length l)%nat -> (j < length l)%nat ->
    Permutation l (swap_cells l i j).
Proof.
  unfold swap_cells.
  induction l as [| x t IH]; intros [| i] [| j] Hi Hj; simpl in *; try lia.
  - apply Permutation_refl.
  - apply list_set_exchange. lia.
  - apply list_set_exchange. lia.
  - apply perm_skip, IH; lia.
Qed.

Lemma randomizeLoop_permutation (draws : nat -> nat) :
  forall c l, (c <= length l)%nat -> Permutation l (randomizeLoop draws c l).
Proof.
  induction c as [| c IH]; intros l Hc; simpl; [apply Permutation_refl|].
  assert (Hr : (draws (S c) mod S c < S c)%nat)
    by (apply Nat.mod_upper_bound; discriminate).
  apply Permutation_trans with (swap_cells l c (draws (S c) mod S c)).
  - apply swap_cells_permutation; lia.
  - apply IH. rewrite length_swap_cells. lia.
Qed.

(** X1.  Whatever [Math.random] returns, [randomizeElementArray] rearranges
    the array: the result holds the same values, each as often as before,
    and has the same length. *)
Theorem shuffle_is_permutation (draws : nat -> nat) (elements : list Z) :
  Permutation elements (randomizeElementArray draws elements) /\
  length (randomizeElementArray draws elements) = length elements /\
  (forall v, In v (randomizeElementArray draws elements) <-> In v elements).
Proof.
  assert (P : Permutation elements (randomizeElementArray draws elements))
    by (apply randomizeLoop_permutation; apply Nat.le_refl).
  split; [exact P|]. split.
  - symmetry. apply Permutation_length, P.
  - intros v. split; intros H.
    + apply (Permutation_in v (Permutation_sym P) H).
    + apply (Permutation_in v P H).
Qed.

Lemma iota_spec (n v : Z) : In v (iota n) <-> 0 <= v < n.
Proof.
  unfold iota. rewrite in_map_iff. split.
  - intros (k & <- & Hk). apply in_seq in Hk. lia.
  - intros Hv. exists (Z.to_nat v). split; [lia|]. apply in_seq. lia.
Qed.

Lemma iota_NoDup (n : Z) : NoDup (iota n).
Proof.
  unfold iota. apply Finite.Injective_map_NoDup; [| apply seq_NoDup].
  intros a b H. lia.
Qed.

Lemma iota_length (n : Z) : length (iota n) = Z.to_nat n.
Proof. unfold iota. rewrite length_map, length_seq. reflexivity. Qed.

(** X2.  Picking an array size [N] replaces the array by a shuffle of
    [0, 1, ..., N - 1]: it has [N] cells, holds every index below [N]
    exactly once and nothing else, whatever the random draws; the session
    restarts at step 0 with FLIP_LOCAL of span 2 and block height 2, and the
    device buffers keep their old contents. *)
Theorem resize_gives_shuffled_identity (draws : nat -> nat) (N : Z) (m : Sample) :
  let m' := totalElementsOnChange draws N m in
  Permutation (iota N) (elements m') /\
  length (elements m') = Z.to_nat N /\
  NoDup (elements m') /\
  (forall v, In v (elements m') <-> 0 <= v < N) /\
  Total_Elements (settings m') = N /\
  Total_Steps (settings m') = getNumSteps N /\
  position m' = mkPosition FLIP_LOCAL 2 2 0 /\
  elementsInputBuffer (gpu m') = elementsInputBuffer (gpu m) /\
  elementsOutputBuffer (gpu m') = elementsOutputBuffer (gpu m) /\
  elementsStagingBuffer (gpu m') = elementsStagingBuffer (gpu m).
Proof.
  intros m'.
  assert (E : elements m' = randomizeElementArray draws (iota N)).
  { unfold m'. destruct m as [st els hbh g]; destruct st. handlers.
    reflexivity. }
  assert (P : Permutation (iota N) (elements m')).
  { rewrite E. apply randomizeLoop_permutation. apply Nat.le_refl. }
  split; [exact P|]. split.
  { rewrite <- (Permutation_length P). apply iota_length. }
  split.
  { apply (Permutation_NoDup P), iota_NoDup. }
  split.
  { intros v. rewrite <- iota_spec. split; intros H.
    - apply (Permutation_in v (Permutation_sym P) H).
    - apply (Permutation_in v P H). }
  unfold m'. destruct m as [st els hbh g]; destruct st; destruct g.
  unfold position. handlers. repeat split.
Qed.

(** X3.  ['Randomize Values'] rearranges the current array without changing
    its values, and restarts the session: step 0, no previous step, next
    step FLIP_LOCAL of span 2, block height 2, swap total and swap counter
    back to 0.  The array size, the size limit and the total number of
    steps for that size stay. *)
Theorem randomize_keeps_values_and_restarts (draws : nat -> nat) (m : Sample) :
  let m' := randomizeValuesOnChange draws m in
  Permutation (elements m) (elements m') /\
  Total_Elements (settings m') = Total_Elements (settings m) /\
  Size_Limit (settings m') = Size_Limit (settings m) /\
  Total_Steps (settings m') = getNumSteps (Total_Elements (settings m)) /\
  position m' = mkPosition FLIP_LOCAL 2 2 0 /\
  Prev_Step (settings m') = NONE /\
  Prev_Swap_Span (settings m') = 0 /\
  Total_Swaps (settings m') = 0 /\
  atomicSwapsOutputBuffer (gpu m') = 0.
Proof.
  intros m'. split.
  - assert (E : elements m' = randomizeElementArray draws (elements m)).
    { unfold m'. destruct m as [st els hbh g]; destruct st. handlers.
      reflexivity. }
    rewrite E. apply randomizeLoop_permutation. apply Nat.le_refl.
  - unfold m'. destruct m as [st els hbh g]; destruct st; destruct g.
    unfold position. handlers. repeat split.
Qed.

(** X4.  The two drop-downs commute: picking the size limit and then the
    array size leaves the page in the same state as picking them in the
    other order (with the same random draws). *)
Theorem drop_downs_commute (draws : nat -> nat) (N L : Z) (m : Sample) :
  totalElementsOnChange draws N (sizeLimitOnChange L m)
  = sizeLimitOnChange L (totalElementsOnChange draws N m).
Proof.
  destruct m as [st els hbh g]; destruct st; destruct g.
  handlers. reflexivity.
Qed.

(** ** The option lists, exactly *)

Lemma halvings_below (fuel : nat) (i low : Z) :
  i < low -> halvings fuel i low = [].
Proof.
  intros H. destruct fuel; [reflexivity|]. simpl.
  destruct (Z.leb_spec low i); [lia | reflexivity].
Qed.

Lemma rev_seq_succ (d : nat) : rev (seq 0 (S d)) = d :: rev (seq 0 d).
Proof. rewrite seq_S, rev_app_distr. reflexivity. Qed.

(** Halving from [2 ^ (c + d)] down to [2 ^ c] lists the powers of two in
    between, largest first. *)
Lemma halvings_exact (c : Z) :
  0 <= c ->
  forall (d fuel : nat), (d < fuel)%nat ->
    halvings fuel (2 ^ (c + Z.of_nat d)) (2 ^ c)
    = map (fun j => 2 ^ (c + Z.of_nat j)) (rev (seq 0 (S d))).
Proof.
  intros Hc. induction d as [| d IH]; intros [| fuel] Hf; try lia.
  - cbn [halvings]. rewrite Z.add_0_r.
    destruct (Z.leb_spec (2 ^ c) (2 ^ c)); [| lia].
    rewrite halvings_below.
    + cbn. rewrite Z.add_0_r. reflexivity.
    + pose proof (pow2_pos c Hc).
      apply Z.div_lt_upper_bound; lia.
  - cbn [halvings].
    pose proof (pow2_le_mono c (c + Z.of_nat (S d)) ltac:(lia)).
    destruct (Z.leb_spec (2 ^ c) (2 ^ (c + Z.of_nat (S d)))); [| lia].
    rewrite pow2_half by lia.
    replace (c + Z.of_nat (S d) - 1) with (c + Z.of_nat d) by lia.
    rewrite IH by lia.
    rewrite (rev_seq_succ (S d)). reflexivity.
Qed.

Lemma pow2_fuel (a : Z) (d : nat) :
  0 <= a -> Z.of_nat d <= a -> (d < Z.to_nat (2 ^ a))%nat.
Proof.
  intros Ha Hd. pose proof (Z.pow_gt_lin_r 2 a ltac:(lia) Ha). lia.
Qed.

(** X5.  On a device whose limit is [2 ^ mx], the array-size drop-down
    offers exactly the powers of two from [32 * 2 ^ mx] down to 4, largest
    first (so its first entry, which sizes the device buffers, is the
    initial array size), and the size-limit drop-down offers exactly the
    powers of two from [2 ^ mx] down to 2: nothing when the limit is 1. *)
Theorem option_lists_are_the_powers_of_two (mx : Z) :
  0 <= mx ->
  totalElementOptions (2 ^ mx)
    = map (fun j => 2 ^ (2 + Z.of_nat j)) (rev (seq 0 (Z.to_nat mx + 4))) /\
  sizeLimitOptions (2 ^ mx)
    = map (fun j => 2 ^ (1 + Z.of_nat j)) (rev (seq 0 (Z.to_nat mx))) /\
  hd 0 (totalElementOptions (2 ^ mx)) = maxElements (2 ^ mx) /\
  (forall N, In N (totalElementOptions (2 ^ mx)) <->
             exists b, 2 <= b <= mx + 5 /\ N = 2 ^ b) /\
  (forall L, In L (sizeLimitOptions (2 ^ mx)) <->
             exists b, 1 <= b <= mx /\ L = 2 ^ b).
Proof.
  intros Hmx.
  assert (ET : totalElementOptions (2 ^ mx)
    = map (fun j => 2 ^ (2 + Z.of_nat j)) (rev (seq 0 (Z.to_nat mx + 4)))).
  { unfold totalElementOptions, maxElements.
    change 32 with (2 ^ 5). rewrite <- Z.pow_add_r by lia.
    replace (mx + 5) with (2 + Z.of_nat (Z.to_nat mx + 3)) by lia.
    change 4 with (2 ^ 2).
    rewrite (halvings_exact 2 ltac:(lia)) by (apply pow2_fuel; lia).
    replace (S (Z.to_nat mx + 3)) with (Z.to_nat mx + 4)%nat by lia.
    reflexivity. }
  assert (EL : sizeLimitOptions (2 ^ mx)
    = map (fun j => 2 ^ (1 + Z.of_nat j)) (rev (seq 0 (Z.to_nat mx)))).
  { unfold sizeLimitOptions.
    destruct (Z.eq_dec mx 0) as [-> | Hnz].
    - reflexivity.
    - replace mx with (1 + Z.of_nat (Z.to_nat mx - 1)) at 1 2 by lia.
      change 2 with (2 ^ 1) at 3.
      rewrite (halvings_exact 1 ltac:(lia)) by (apply pow2_fuel; lia).
      replace (S (Z.to_nat mx - 1)) with (Z.to_nat mx) by lia.
      reflexivity. }
  split; [exact ET|]. split; [exact EL|]. split; [| split].
  - rewrite ET. replace (Z.to_nat mx + 4)%nat with (S (Z.to_nat mx + 3)) by lia.
    rewrite rev_seq_succ. cbn [map hd]. unfold maxElements.
    change 32 with (2 ^ 5). rewrite <- Z.pow_add_r by lia. f_equal. lia.
  - intros N. rewrite ET, in_map_iff. split.
    + intros (j & <- & Hj). apply in_rev, in_seq in Hj.
      exists (2 + Z.of_nat j). split; [lia | reflexivity].
    + intros (b & Hb & ->). exists (Z.to_nat (b - 2)). split.
      * f_equal. lia.
      * apply in_rev. rewrite rev_involutive. apply in_seq. lia.
  - intros L. rewrite EL, in_map_iff. split.
    + intros (j & <- & Hj). apply in_rev, in_seq in Hj.
      exists (1 + Z.of_nat j). split; [lia | reflexivity].
    + intros (b & Hb & ->). exists (Z.to_nat (b - 1)). split.
      * f_equal. lia.
      * apply in_rev. rewrite rev_involutive. apply in_seq. lia.
Qed.

Lemma option_lists_are_the_powers_of_two_witness :
  totalElementOptions 256
    = [8192; 4096; 2048; 1024; 512; 256; 128; 64; 32; 16; 8; 4] /\
  sizeLimitOptions 256 = [256; 128; 64; 32; 16; 8; 4; 2].
Proof.
  destruct (option_lists_are_the_powers_of_two 8 ltac:(lia)) as (H1 & H2 & _).
  split; [exact H1 | exact H2].
Defined.

(** ** What the execution information shows *)

Section Display.
Variable maxInvocationsX : Z.
Variable computeMain :
  Z -> Z -> Z -> Z -> list Z -> list Z * Z -> list Z * Z.

Lemma fits_not_NONE (k j : Z) (s : StepType) : fits k j s -> s <> NONE.
Proof. destruct s; simpl; intros H E; try discriminate E; exact H. Qed.

Lemma tracked_ext (m m' : Sample) :
  Total_Elements (settings m') = Total_Elements (settings m) ->
  Total_Steps (settings m') = Total_Steps (settings m) ->
  1 <= Workgroup_Size (settings m') ->
  1 <= Size_Limit (settings m') ->
  position m' = position m ->
  Prev_Step (settings m') = Prev_Step (settings m) ->
  Prev_Swap_Span (settings m') = Prev_Swap_Span (settings m) ->
  tracked m -> tracked m'.
Proof.
  intros EN ET HW HL Ep E1 E2 (n & Hn & HN & HT & _ & _ & H).
  destruct (position_inv m' _ _ _ _ Ep) as (P1 & P2 & P3 & P4).
  exists n. rewrite EN, ET, P1, P2, P3, P4, E1, E2. auto 10.
Qed.

Lemma tracked_start (m : Sample) (n : Z) :
  2 <= n ->
  Total_Elements (settings m) = 2 ^ n ->
  Total_Steps (settings m) = getNumSteps (2 ^ n) ->
  1 <= Workgroup_Size (settings m) ->
  1 <= Size_Limit (settings m) ->
  position m = mkPosition FLIP_LOCAL 2 2 0 ->
  Prev_Step (settings m) = NONE ->
  Prev_Swap_Span (settings m) = 0 ->
  tracked m.
Proof.
  intros Hn HN HT HW HL Hp E1 E2.
  destruct (position_inv m _ _ _ _ Hp) as (P1 & P2 & P3 & P4).
  exists n. rewrite getNumSteps_pow2 in HT by lia.
  repeat (split; [assumption|]).
  left. exists 1, 1. rewrite P1, P2, P3, P4, E1, E2.
  repeat split; try lia. left. auto.
Qed.

Lemma advance_tracked (m : Sample) :
  tracked m -> tracked (advance computeMain m).
Proof.
  intros Ht. assert (Ht' := Ht).
  destruct Ht' as (n & Hn & HN & HT & HW & HL &
    [(k & j & Hj & Hk & Hfit & Hspan & Hh & Hidx & Hprev)
    | (Hstep & Hspan & Hh & Hidx & Hp1 & Hp2)]).
  - assert (Hd : highestBlockHeight m <> Total_Elements (settings m) * 2).
    { rewrite Hh, HN, <- pow2_double by lia.
      intros E; apply pow2_inj in E; lia. }
    destruct (advance_configuration computeMain m)
      as (CN & CL & CW & _ & CT & _).
    pose proof (fits_not_NONE _ _ _ Hfit) as Hnn.
    exists n. rewrite CN, CL, CW, CT.
    repeat (split; [assumption|]).
    destruct (Z.eq_dec j 1) as [-> | Hj1].
    + destruct (advance_cycle_end computeMain m Hd) as (P & Q1 & Q2).
      { rewrite Hspan. reflexivity. }
      rewrite Hh, HN, Hidx, <- !pow2_double in P by lia.
      rewrite Q1, Q2, Hspan.
      destruct (Z.eqb_spec (2 ^ (k + 1)) (2 ^ (n + 1))) as [E | E].
      * apply pow2_inj in E; try lia. assert (k = n) by lia. subst k.
        destruct (position_inv _ _ _ _ _ P) as (E1 & E2 & E3 & E4).
        right. rewrite E1, E2, E3, E4.
        repeat split.
        -- rewrite (triangle_pred n). lia.
        -- destruct (Next_Step (settings m)); simpl in Hfit; try lia;
             try contradiction; reflexivity.
      * assert (k + 1 <= n).
        { destruct (Z.eq_dec k n) as [-> | ?];
            [contradiction E; reflexivity | lia]. }
        left. exists (k + 1), (k + 1).
        assert (Ei : triangle (k - 1) + (k - 1) + 1
                     = triangle (k + 1 - 1) + (k + 1 - (k + 1))).
        { replace (k + 1 - 1) with k by lia. rewrite (triangle_pred k). lia. }
        destruct (2 ^ (k + 1) >? Workgroup_Size (settings m) * 2);
          destruct (position_inv _ _ _ _ _ P) as (E1 & E2 & E3 & E4);
          rewrite E1, E2, E3, E4, Z.eqb_refl; simpl fits;
          repeat split; try lia; right; repeat split; try lia; assumption.
    + destruct (advance_disperse computeMain m Hd) as (P & Q1 & Q2).
      { rewrite Hspan, pow2_half by lia. pose proof (pow2_ge_2 (j - 1)). lia. }
      rewrite Hspan, pow2_half, Hh, Hidx in P by lia.
      rewrite Q1, Q2, Hspan.
      left. exists k, (j - 1).
      assert (Hprev' : 2 <= k /\ Next_Step (settings m) <> NONE /\
                2 ^ j = (if j - 1 =? k then 2 else 2 ^ (j - 1 + 1))).
      { split; [lia|]. split; [assumption|].
        destruct (Z.eqb_spec (j - 1) k); [lia|]. f_equal. lia. }
      destruct (position_inv _ _ _ _ _ P) as (E1 & E2 & E3 & E4).
      rewrite E1, E2, E3, E4.
      destruct (Z.gtb_spec (2 ^ (j - 1)) (Workgroup_Size (settings m) * 2))
        as [Hg | Hg]; simpl fits.
      * assert (2 <= j - 1).
        { destruct (Z.eq_dec (j - 1) 1) as [E | ?]; [| lia].
          rewrite E in Hg. change (2 ^ 1) with 2 in Hg. lia. }
        repeat split; try lia. right. exact Hprev'.
      * repeat split; try lia. right. exact Hprev'.
  - destruct (advance_blocked computeMain m) as (P & Q1 & Q2 & _).
    { rewrite Hh, HN. apply pow2_double. lia. }
    destruct (advance_configuration computeMain m)
      as (CN & CL & CW & _ & CT & _).
    apply (tracked_ext m); try assumption; lia.
Qed.

Lemma frame_tracked (m : Sample) : tracked m -> tracked (frame computeMain m).
Proof.
  intros Ht. destruct (executeStep (settings m)) eqn:Ex.
  - rewrite <- (executeSortStepOnChange_id m Ex).
    apply advance_tracked, Ht.
  - destruct (frame_idle computeMain m Ex) as (P & Q1 & Q2 & _).
    destruct (frame_configuration computeMain m)
      as (CN & CL & CW & _ & CT & _).
    assert (Ht' := Ht). destruct Ht' as (n & _ & _ & _ & HW & HL & _).
    apply (tracked_ext m); try assumption; lia.
Qed.

Lemma offered_size_limit (mx L : Z) :
  0 <= mx -> In L (sizeLimitOptions (2 ^ mx)) ->
  exists l, 1 <= l /\ L = 2 ^ l.
Proof.
  intros Hmx HL. unfold sizeLimitOptions in HL.
  apply halvings_pow2 in HL; [| lia | lia].
  destruct HL as (b & Hb & -> & HL). exists b. split; [| reflexivity].
  destruct (Z.le_gt_cases 1 b) as [? | Hlt]; [assumption|].
  assert (b = 0) by lia. subst b. change (2 ^ 0) with 1 in HL. lia.
Qed.

Lemma half_pow2_ge_2 (n : Z) : 2 <= n -> 2 <= 2 ^ n / 2.
Proof. intros Hn. rewrite pow2_half by lia. apply pow2_ge_2. lia. Qed.

Lemma handle_tracked (e : Event) (m : Sample) :
  is_pow2 maxInvocationsX -> offered maxInvocationsX e ->
  tracked m -> tracked (handle computeMain e m).
Proof.
  intros (mx & Hmx & ->) He Ht. assert (Ht' := Ht).
  destruct Ht' as (n & Hn & HN & HT & HW & HL & _).
  destruct e as [draws N | L | | draws | | c |]; cbn [handle offered] in *.
  - destruct (offered_total_elements mx N Hmx He) as (n' & Hn' & ->).
    pose proof (half_pow2_ge_2 n' Hn').
    apply (tracked_start _ n' Hn');
      destruct m as [st els hbh g]; destruct st; unfold position in *;
      handlers; try reflexivity; lia.
  - destruct (offered_size_limit mx L Hmx He) as (l & Hl & ->).
    pose proof (pow2_ge_2 l Hl). pose proof (half_pow2_ge_2 n Hn).
    apply (tracked_ext m); try exact Ht;
      destruct m as [st els hbh g]; destruct st; unfold position in *;
      handlers; try reflexivity; subst; lia.
  - apply (tracked_ext m); try exact Ht;
      destruct m as [st els hbh g]; destruct st; unfold position in *;
      handlers; try reflexivity; lia.
  - pose proof (half_pow2_ge_2 n Hn).
    apply (tracked_start _ n Hn);
      destruct m as [st els hbh g]; destruct st; unfold position in *;
      handlers; try reflexivity; subst; try lia.
  - apply (tracked_ext m); try exact Ht;
      destruct m as [st els hbh g]; destruct st; unfold position in *;
      handlers; try reflexivity; lia.
  - apply (tracked_ext m); try exact Ht;
      destruct m as [st els hbh g]; destruct st; unfold position in *;
      handlers; try reflexivity; lia.
  - apply frame_tracked, Ht.
Qed.

Lemma reachable_tracked (m : Sample) :
  is_pow2 maxInvocationsX ->
  reachable maxInvocationsX computeMain m -> tracked m.
Proof.
  intros HM. induction 1 as [draws | e m _ IH He].
  - destruct HM as (mx & Hmx & ->).
    pose proof (pow2_pos mx Hmx).
    apply (tracked_start _ (mx + 5)); try reflexivity; try lia;
      unfold initialSample, initialSettings, maxElements; fields;
      try lia.
    + rewrite Z.pow_add_r by lia. reflexivity.
    + rewrite Z.pow_add_r by lia. reflexivity.
  - apply handle_tracked; assumption.
Qed.

End Display.

Section DisplayProperties.
Variable maxInvocationsX : Z.
Variable computeMain :
  Z -> Z -> Z -> Z -> list Z -> list Z * Z -> list Z * Z.

Lemma frame_pipeline (m : Sample) :
  computePipeline (gpu (frame computeMain m)) = computePipeline (gpu m).
Proof.
  destruct m as [st els hbh g]. destruct st. destruct g. unfold frame.
  destruct (dispatches _); fields.
  - destruct (computeMain _ _ _ _ _ _) as [out sw].
    destruct (sequence _ _) as [st' hbh'].
    destruct executeStep0; reflexivity.
  - destruct executeStep0; reflexivity.
Qed.

Lemma handle_limited (e : Event) (m : Sample) :
  is_pow2 maxInvocationsX -> offered maxInvocationsX e ->
  configured m -> limited m -> limited (handle computeMain e m).
Proof.
  intros (mx & Hmx & ->) He (_ & HW) (HL & HP).
  destruct e as [draws N | L | | draws | | c |]; cbn [handle offered] in *.
  - destruct m as [st els hbh g]; destruct st; destruct g.
    unfold limited in *. handlers. auto.
  - destruct (offered_size_limit mx L Hmx He) as (l & Hl & ->).
    destruct m as [st els hbh g]; destruct st; destruct g.
    unfold limited in *. handlers. split; [| reflexivity].
    exists l. split; [lia | reflexivity].
  - destruct m as [st els hbh g]; destruct st; destruct g.
    unfold limited in *. handlers. auto.
  - destruct m as [st els hbh g]; destruct st; destruct g.
    unfold limited in *. handlers. split; [exact HL|]. congruence.
  - destruct m as [st els hbh g]; destruct st; destruct g.
    unfold limited in *. handlers. auto.
  - destruct m as [st els hbh g]; destruct st; destruct g.
    unfold limited in *. handlers. auto.
  - unfold limited.
    destruct (frame_configuration computeMain m) as (_ & CL & CW & _).
    rewrite CL, CW, frame_pipeline. auto.
Qed.

Lemma reachable_limited (m : Sample) :
  is_pow2 maxInvocationsX ->
  reachable maxInvocationsX computeMain m -> limited m.
Proof.
  intros HM Hr.
  assert (HM' : 0 < maxInvocationsX)
    by (destruct HM as (mx & Hmx & ->); apply pow2_pos, Hmx).
  induction Hr as [draws | e m Hr IH He].
  - split; [exact HM | reflexivity].
  - apply handle_limited; try assumption.
    apply (reachable_configured maxInvocationsX computeMain); assumption.
Qed.

(** The workgroup count for [2 ^ n] elements under size limit [2 ^ l]. *)
Lemma ceil_div_pow2 (n l : Z) :
  1 <= n -> 0 <= l ->
  ceil_div (2 ^ n - 1) (2 ^ l * 2)
  = (if l <? n then 2 ^ (n - 1 - l) else 1).
Proof.
  intros Hn Hl. unfold ceil_div. rewrite <- pow2_double by lia.
  pose proof (pow2_pos (l + 1) ltac:(lia)) as Hp.
  destruct (Z.ltb_spec l n) as [Hlt | Hge].
  - assert (E : (- (2 ^ n - 1)) / 2 ^ (l + 1) = - 2 ^ (n - 1 - l)).
    { symmetry. apply (Z.div_unique_pos _ _ _ 1).
      - pose proof (pow2_ge_2 (l + 1) ltac:(lia)). lia.
      - replace n with ((l + 1) + (n - 1 - l)) at 1 by lia.
        rewrite Z.pow_add_r by lia. lia. }
    rewrite E. lia.
  - assert (E : (- (2 ^ n - 1)) / 2 ^ (l + 1) = - 1).
    { symmetry.
      pose proof (pow2_lt_mono n (l + 1) ltac:(lia)).
      pose proof (pow2_ge_2 n ltac:(lia)).
      apply (Z.div_unique_pos _ _ _ (2 ^ (l + 1) + 1 - 2 ^ n)); lia. }
    rewrite E. reflexivity.
Qed.

(** X6.  On every state of the page (device limit a power of two) the array
    size is a power of two from 4 on, and either the sort is over (next step
    NONE, span 0, block height twice the array size), or the next span and
    the block height are powers of two with
    [2 <= span <= block height <= array size]; the span is even and
    divides the array size. *)
Theorem page_spans_are_powers_of_two (m : Sample) :
  is_pow2 maxInvocationsX ->
  reachable maxInvocationsX computeMain m ->
  let N := Total_Elements (settings m) in
  let span := Next_Swap_Span (settings m) in
  let hbh := highestBlockHeight m in
  is_pow2 N /\ 4 <= N /\
  ((Next_Step (settings m) = NONE /\ span = 0 /\ hbh = N * 2) \/
   (Next_Step (settings m) <> NONE /\
    is_pow2 span /\ is_pow2 hbh /\
    2 <= span /\ span <= hbh /\ hbh <= N /\
    (span | N) /\ span / 2 * 2 = span)).
Proof.
  intros HM Hr N span hbh.
  destruct (reachable_scheduled _ _ m HM Hr)
    as (n & Hn & HN & [(k & j & Hj & Hk & Hstep & Hspan & Hh)
                      | (Hstep & Hspan & Hh)]);
    fold N in HN; fold span in Hspan; fold hbh in Hh.
  - split; [exists n; split; [lia | exact HN]|].
    split; [rewrite HN; change 4 with (2 ^ 2); apply pow2_le_mono; lia|].
    right. rewrite Hspan, Hh, HN.
    split; [exact Hstep|].
    split; [exists j; split; [lia | reflexivity]|].
    split; [exists k; split; [lia | reflexivity]|].
    split; [apply pow2_ge_2; lia|].
    split; [apply pow2_le_mono; lia|].
    split; [apply pow2_le_mono; lia|].
    split.
    + exists (2 ^ (n - j)). rewrite <- Z.pow_add_r by lia. f_equal. lia.
    + rewrite pow2_half, <- pow2_double by lia. f_equal. lia.
  - split; [exists n; split; [lia | exact HN]|].
    split; [rewrite HN; change 4 with (2 ^ 2); apply pow2_le_mono; lia|].
    left. rewrite Hh, HN. repeat split; try assumption.
    apply pow2_double. lia.
Qed.

(** X7.  On every state of the page (device limit a power of two) the
    dispatch covers the array as the settings comment requires: the array
    size equals workgroup size times workgroups per step times 2.  The
    workgroup size is the smaller of half the array size and the size limit,
    and the compute pipeline in use was built for it.  Under a size limit of
    at most half the array the workgroups have the size of the limit; above
    that there is a single workgroup of half the array. *)
Theorem workgroups_cover_the_array (m : Sample) :
  is_pow2 maxInvocationsX ->
  reachable maxInvocationsX computeMain m ->
  let N := Total_Elements (settings m) in
  let L := Size_Limit (settings m) in
  let W := Workgroup_Size (settings m) in
  let c := Workgroups_Per_Step (settings m) in
  W * c * 2 = N /\
  W = Z.min (N / 2) L /\
  computePipeline (gpu m) = W /\
  (L <= N / 2 -> W = L /\ c * (L * 2) = N) /\
  (N / 2 < L -> W = N / 2 /\ c = 1).
Proof.
  intros HM Hr N L W c.
  assert (HM' : 0 < maxInvocationsX)
    by (destruct HM as (mx & Hmx & ->); apply pow2_pos, Hmx).
  destruct (reachable_configured _ _ m HM' Hr) as (Hc & HW).
  destruct (reachable_limited m HM Hr) as ((l & Hl & HL) & HP).
  destruct (reachable_scheduled _ _ m HM Hr) as (n & Hn & HN & _).
  fold N L W c in Hc, HW, HL, HP, HN.
  rewrite HN, HL, ceil_div_pow2 in Hc by lia.
  rewrite HN, HL, pow2_half in HW by lia.
  assert (EN2 : N / 2 = 2 ^ (n - 1)) by (rewrite HN; apply pow2_half; lia).
  rewrite EN2, HL.
  pose proof (pow2_double (n - 1) ltac:(lia)) as Ed.
  replace (n - 1 + 1) with n in Ed by lia.
  destruct (Z.ltb_spec l n) as [Hlt | Hge].
  - pose proof (pow2_le_mono l (n - 1) ltac:(lia)).
    assert (EW : W = 2 ^ l) by lia.
    assert (Ec : 2 ^ l * c * 2 = N).
    { rewrite Hc, HN. replace n with (l + (n - 1 - l) + 1) at 2 by lia.
      rewrite pow2_double, Z.pow_add_r by lia. reflexivity. }
    split; [rewrite EW; exact Ec|].
    split; [lia|]. split; [exact HP|]. split.
    + intros _. split; [exact EW | lia].
    + intros Hc'. lia.
  - pose proof (pow2_lt_mono (n - 1) l ltac:(lia)).
    assert (EW : W = 2 ^ (n - 1)) by lia.
    split; [rewrite EW, Hc, HN; lia|].
    split; [lia|]. split; [exact HP|]. split.
    + intros Hc'. lia.
    + intros _. split; [exact EW | exact Hc].
Qed.

(** X8.  On every state of the page (device limit a power of two) the
    progress display is sound: the step index lies between 0 and the total
    number of steps, the total is [getNumSteps] of the current array size,
    and the index has reached the total exactly when the next step is
    NONE. *)
Theorem step_index_within_total (m : Sample) :
  is_pow2 maxInvocationsX ->
  reachable maxInvocationsX computeMain m ->
  0 <= Step_Index (settings m) <= Total_Steps (settings m) /\
  Total_Steps (settings m) = getNumSteps (Total_Elements (settings m)) /\
  (Step_Index (settings m) = Total_Steps (settings m) <->
   Next_Step (settings m) = NONE).
Proof.
  intros HM Hr.
  destruct (reachable_tracked _ _ m HM Hr)
    as (n & Hn & HN & HT & _ & _ &
        [(k & j & Hj & Hk & Hfit & _ & _ & Hidx & _)
        | (Hstep & _ & _ & Hidx & _)]).
  - pose proof (triangle_nonneg (k - 1) ltac:(lia)).
    pose proof (triangle_pred k). pose proof (triangle_mono k n ltac:(lia)).
    rewrite HT, HN, Hidx, getNumSteps_pow2 by lia.
    split; [lia|]. split; [reflexivity|]. split; [lia|].
    intros E. exfalso. exact (fits_not_NONE _ _ _ Hfit E).
  - pose proof (triangle_nonneg n ltac:(lia)).
    rewrite HT, HN, Hidx, getNumSteps_pow2 by lia.
    split; [lia|]. split; [reflexivity|]. split; auto.
Qed.

Ltac display_cases :=
  repeat match goal with
         | |- _ /\ _ => split
         | |- _ <-> _ => split
         | |- _ -> _ => intro
         | H : _ \/ _ |- _ => destruct H
         | H : _ /\ _ |- _ => destruct H
         end;
  try discriminate; try contradiction; try reflexivity; try lia;
  try congruence;
  first [left; reflexivity | right; reflexivity].

(** X9.  On every state of the page (device limit a power of two) the
    execution information is consistent, as the comments on the settings
    say: the previous step is NONE exactly at step 0, where the next step is
    FLIP_LOCAL of span 2; when the next step is NONE the previous one was
    DISPERSE_LOCAL of span 2; the next step is a flip exactly when its span
    equals the block height; before a disperse step the previous span is
    twice the next span, and before a flip after step 0 it is 2. *)
Theorem execution_information_is_consistent (m : Sample) :
  is_pow2 maxInvocationsX ->
  reachable maxInvocationsX computeMain m ->
  let st := settings m in
  (Step_Index st = 0 <-> Prev_Step st = NONE) /\
  (Step_Index st = 0 ->
     Next_Step st = FLIP_LOCAL /\ Next_Swap_Span st = 2 /\
     Prev_Swap_Span st = 0) /\
  (Next_Step st = NONE ->
     Prev_Step st = DISPERSE_LOCAL /\ Prev_Swap_Span st = 2) /\
  (Next_Step st = FLIP_LOCAL \/ Next_Step st = FLIP_GLOBAL <->
     Next_Step st <> NONE /\ Next_Swap_Span st = highestBlockHeight m) /\
  (Next_Step st = DISPERSE_LOCAL \/ Next_Step st = DISPERSE_GLOBAL ->
     Prev_Swap_Span st = Next_Swap_Span st * 2 /\
     Next_Swap_Span st < highestBlockHeight m) /\
  (Next_Step st = FLIP_LOCAL \/ Next_Step st = FLIP_GLOBAL ->
     Step_Index st <> 0 -> Prev_Swap_Span st = 2).
Proof.
  intros HM Hr st. unfold st.
  destruct (reachable_tracked _ _ m HM Hr)
    as (n & Hn & HN & HT & _ & _ &
        [(k & j & Hj & Hk & Hfit & Hspan & Hh & Hidx & Hprev)
        | (Hstep & Hspan & Hh & Hidx & Hp1 & Hp2)]).
  - rewrite Hspan, Hh, Hidx.
    pose proof (pow2_double j ltac:(lia)) as Ed.
    destruct Hprev as [(-> & E1 & E2) | (Hk2 & E1 & E2)]; rewrite E2.
    + assert (j = 1) by lia. subst j. rewrite E1.
      change (triangle (1 - 1) + (1 - 1)) with 0. change (2 ^ 1) with 2.
      destruct (Next_Step (settings m)); simpl in Hfit;
        try contradiction; try lia.
      display_cases.
    + pose proof (triangle_nonneg (k - 1 - 1) ltac:(lia)) as T0.
      pose proof (triangle_pred (k - 1)) as T1.
      destruct (Z.eqb_spec j k) as [-> | Hjk].
      * destruct (Next_Step (settings m)); simpl in Hfit;
          try contradiction; try lia; display_cases.
      * pose proof (pow2_lt_mono j k ltac:(lia)) as Hlt.
        destruct (Next_Step (settings m)); simpl in Hfit;
          try contradiction; try lia; display_cases.
  - pose proof (triangle_nonneg (n - 1) ltac:(lia)).
    pose proof (triangle_pred n).
    pose proof (pow2_pos (n + 1) ltac:(lia)).
    rewrite Hstep, Hspan, Hh, Hidx, Hp1, Hp2.
    display_cases.
Qed.

End DisplayProperties.

(** ** Local and global steps, and the shape of the trace *)

Section Trace.
Variable computeMain :
  Z -> Z -> Z -> Z -> list Z -> list Z * Z -> list Z * Z.

(** X10.  In a session of [2 ^ n] elements under size limit [L], a step to
    execute is a global one (FLIP_GLOBAL or DISPERSE_GLOBAL) exactly when
    its span exceeds twice the size limit; so under a size limit of at
    least half the array size every step is local. *)
Theorem global_steps_exceed_the_size_limit
    (draws : nat -> nat) (n L : Z) (m : Sample) (i : nat) :
  1 <= n -> 1 <= L ->
  (i < Z.to_nat (triangle n))%nat ->
  let s := advances computeMain i (startSession draws (2 ^ n) L m) in
  (Next_Step (settings s) = FLIP_GLOBAL \/
   Next_Step (settings s) = DISPERSE_GLOBAL <->
   Next_Swap_Span (settings s) > L * 2) /\
  (2 ^ n <= L * 2 ->
   Next_Step (settings s) = FLIP_LOCAL \/
   Next_Step (settings s) = DISPERSE_LOCAL).
Proof.
  intros Hn HL Hi s.
  destruct (session_trace computeMain draws n L m Hn HL) as (_ & _ & _ & Hall).
  destruct (Hall i Hi) as (k & j & Hin). fold s in Hin.
  destruct (in_cycle_facts n _ k j s Hin) as (Estep & Espan & _).
  assert (Hjk : 1 <= j <= k /\ k <= n) by (destruct Hin; tauto).
  pose proof (pow2_le_mono j n ltac:(lia)) as Hle.
  rewrite Estep, Espan. unfold stepAt.
  destruct (Z.eqb_spec j k) as [<- | Hne];
    rewrite size_limit_split by lia;
    destruct (Z.gtb_spec (2 ^ j) (L * 2)) as [Hg | Hg];
    (split; [split; [intros [E | E]; try discriminate E; lia
                    | intros; first [lia | left; reflexivity
                                    | right; reflexivity]]
            | intros; first [lia | left; reflexivity | right; reflexivity]]).
Qed.

End Trace.

(** X11.  The trace of a session depends on the array size and the size
    limit only: two sessions of [2 ^ n] elements under size limit [L] show
    the same next step, next span, block height and step index after the
    same number of steps, whatever the shaders compute, whatever the random
    draws, and whatever the page showed before. *)
Theorem trace_depends_on_sizes_only
    (computeMain1 computeMain2 :
       Z -> Z -> Z -> Z -> list Z -> list Z * Z -> list Z * Z)
    (draws1 draws2 : nat -> nat) (m1 m2 : Sample) (n L : Z) (i : nat) :
  1 <= n -> 1 <= L ->
  position (advances computeMain1 i (startSession draws1 (2 ^ n) L m1))
  = position (advances computeMain2 i (startSession draws2 (2 ^ n) L m2)).
Proof.
  intros Hn HL.
  destruct (session_trace computeMain1 draws1 n L m1 Hn HL)
    as (F1 & _ & _ & Hall1).
  destruct (session_trace computeMain2 draws2 n L m2 Hn HL)
    as (F2 & _ & _ & _).
  destruct (Nat.lt_ge_cases i (Z.to_nat (triangle n))) as [Hi | Hi].
  - destruct (Hall1 i Hi) as (k & j & Hin).
    pose proof (session_index computeMain1 draws1 n L m1 Hn HL i
                  ltac:(lia)) as Ei.
    assert (Hin' := Hin). destruct Hin' as (_ & _ & Hj & Hk & Hp).
    destruct (position_inv _ _ _ _ _ Hp) as (_ & _ & _ & Eidx).
    rewrite Ei in Eidx.
    pose proof (session_position computeMain2 draws2 n L k j m2 Hn HL Hj Hk)
      as Hin2.
    rewrite <- Eidx, Nat2Z.id in Hin2.
    destruct Hin2 as (_ & _ & _ & _ & Hp2).
    rewrite Hp, Hp2, <- Eidx. reflexivity.
  - replace i with (Z.to_nat (triangle n) + (i - Z.to_nat (triangle n)))%nat
      by lia.
    rewrite !advances_add.
    destruct (finished_stays computeMain1 n _ (i - Z.to_nat (triangle n))
                ltac:(lia) F1) as ((_ & P1) & _).
    destruct (finished_stays computeMain2 n _ (i - Z.to_nat (triangle n))
                ltac:(lia) F2) as ((_ & P2) & _).
    rewrite P1, P2. reflexivity.
Qed.

(** ** Hovering *)

(** X12.  On every state of the page (device limit a power of two),
    hovering a cell [c] of the array stores [c] as the hovered cell and a
    cell of the array as the swapped cell, and does not disturb the session.
    The swapped cell is [c] itself exactly when the next step is NONE or
    DISPERSE_GLOBAL; before a flip or a DISPERSE_LOCAL step it is another
    cell. *)
Theorem hover_shows_a_cell_of_the_array
    (maxInvocationsX : Z)
    (computeMain : Z -> Z -> Z -> Z -> list Z -> list Z * Z -> list Z * Z)
    (m : Sample) (c : Z) :
  is_pow2 maxInvocationsX ->
  reachable maxInvocationsX computeMain m ->
  0 <= c < Total_Elements (settings m) ->
  let m' := hoveredCellOnChange c m in
  Hovered_Cell (settings m') = c /\
  0 <= Swapped_Cell (settings m') < Total_Elements (settings m) /\
  (Swapped_Cell (settings m') = c <->
   Next_Step (settings m) = NONE \/ Next_Step (settings m) = DISPERSE_GLOBAL) /\
  position m' = position m /\
  elements m' = elements m.
Proof.
  intros HM Hr Hc m'.
  destruct (hoveredCellOnChange_spec c m) as (E1 & E2). fold m' in E1, E2.
  assert (E3 : position m' = position m /\ elements m' = elements m).
  { unfold m'. destruct m as [st els hbh g]; destruct st.
    unfold position. handlers. split; reflexivity. }
  split; [exact E1|].
  cut (0 <= Swapped_Cell (settings m') < Total_Elements (settings m) /\
       (Swapped_Cell (settings m') = c <->
        Next_Step (settings m) = NONE \/
        Next_Step (settings m) = DISPERSE_GLOBAL)); [tauto|].
  rewrite E2.
  destruct (reachable_scheduled _ _ m HM Hr)
    as (n & Hn & HN & [(k & j & Hj & Hk & Hstep & Hspan & Hh)
                      | (Hstep & Hspan & Hh)]).
  - rewrite Hspan.
    set (a := 2 ^ (j - 1)).
    assert (Ha : 0 < a) by (apply pow2_pos; lia).
    assert (Eh : 2 ^ j = 2 * a).
    { unfold a. rewrite <- pow2_succ by lia. f_equal. lia. }
    assert (Hdiv : (2 * a | Total_Elements (settings m))).
    { rewrite HN, <- Eh. exists (2 ^ (n - j)).
      rewrite <- Z.pow_add_r by lia. f_equal. lia. }
    rewrite Eh.
    assert (Hflip : 0 <= swappedIndex FLIP_LOCAL (2 * a) c
                      < Total_Elements (settings m) /\
                    swappedIndex FLIP_LOCAL (2 * a) c <> c).
    { destruct (flip_block (2 * a) c ltac:(lia) (proj1 Hc)) as (Hq & Hm).
      split.
      - apply (same_block_in_range _ (2 * a) c); try assumption; try lia.
        apply flip_nonneg; lia.
      - intros E. rewrite E in Hm. lia. }
    assert (Hdisp : 0 <= swappedIndex DISPERSE_LOCAL (2 * a) c
                      < Total_Elements (settings m) /\
                    swappedIndex DISPERSE_LOCAL (2 * a) c <> c).
    { split.
      - apply (same_block_in_range _ (2 * a) c); try assumption; try lia.
        + apply disperse_nonneg; lia.
        + apply (disperse_block a c); lia.
      - rewrite disperse_formula by lia.
        destruct (c mod (2 * a) <? a); lia. }
    destruct (Next_Step (settings m)) eqn:En.
    + exfalso. apply Hstep. reflexivity.
    + split; [tauto|]. split; [tauto | intros [E | E]; discriminate E].
    + split; [tauto|]. split; [tauto | intros [E | E]; discriminate E].
    + change (swappedIndex FLIP_GLOBAL (2 * a) c)
        with (swappedIndex FLIP_LOCAL (2 * a) c).
      split; [tauto|]. split; [tauto | intros [E | E]; discriminate E].
    + cbn [swappedIndex]. split; [lia|]. split; auto.
  - rewrite Hstep. cbn [swappedIndex]. split; [lia|]. split; auto.
Qed.

(** ** Sizes of the array and of the buffers *)

Lemma firstn_writeBuffer (buffer data : list Z) :
  firstn (length data) (writeBuffer buffer data) = data.
Proof.
  unfold writeBuffer. generalize (skipn (length data) buffer) as rest.
  induction data as [| x t IH]; intros rest; simpl.
  - reflexivity.
  - f_equal. apply IH.
Qed.

Lemma length_writeBuffer (buffer data : list Z) :
  (length data <= length buffer)%nat ->
  length (writeBuffer buffer data) = length buffer.
Proof.
  intros H. unfold writeBuffer. rewrite length_app, length_skipn. lia.
Qed.

Lemma length_randomizeElementArray (draws : nat -> nat) (l : list Z) :
  length (randomizeElementArray draws l) = length l.
Proof.
  symmetry. apply Permutation_length, randomizeLoop_permutation.
  apply Nat.le_refl.
Qed.

Section Sizes.
Variable maxInvocationsX : Z.
Variable computeMain :
  Z -> Z -> Z -> Z -> list Z -> list Z * Z -> list Z * Z.
Hypothesis shader_keeps_size : keeps_size computeMain.

Lemma frame_sized (m : Sample) :
  sized maxInvocationsX m -> sized maxInvocationsX (frame computeMain m).
Proof.
  intros (H1 & H2 & H3 & H4 & H5).
  destruct (frame_configuration computeMain m) as (CN & _).
  unfold sized. rewrite CN. clear CN.
  destruct m as [st els hbh g]. destruct st. destruct g. fields.
  assert (Hw : length (writeBuffer elementsInputBuffer0 els)
               = Z.to_nat (maxElements maxInvocationsX)).
  { rewrite length_writeBuffer; [exact H1 | lia]. }
  unfold frame. fields.
  destruct (dispatches _).
  - pose proof (shader_keeps_size computePipeline0 Workgroups_Per_Step0
                  (StepEnum Next_Step0) Next_Swap_Span0
                  (writeBuffer elementsInputBuffer0 els)
                  elementsOutputBuffer0 atomicSwapsOutputBuffer0
                  ltac:(lia)) as Hk.
    destruct (computeMain _ _ _ _ _ _) as [out sw]. fields.
    unfold sequence. fields.
    destruct (Next_Swap_Span0 / 2 =? 1);
      [destruct (hbh * 2 =? Total_Elements0 * 2);
       [| destruct (hbh * 2 >? Workgroup_Size0 * 2)]
      | destruct (Next_Swap_Span0 / 2 >? Workgroup_Size0 * 2)];
      destruct executeStep0; fields;
      repeat split; try rewrite length_firstn; lia.
  - destruct executeStep0; fields;
      repeat split; try rewrite length_firstn; lia.
Qed.

Lemma offered_total_elements_fit (mx N : Z) :
  0 <= mx -> In N (totalElementOptions (2 ^ mx)) ->
  0 <= N <= maxElements (2 ^ mx).
Proof.
  intros Hmx HN. unfold totalElementOptions in HN. unfold maxElements in *.
  change 32 with (2 ^ 5) in *. rewrite <- Z.pow_add_r in * by lia.
  apply halvings_pow2 in HN; [| lia | lia].
  destruct HN as (b & Hb & -> & _).
  pose proof (pow2_pos b ltac:(lia)). pose proof (pow2_le_mono b (mx + 5)).
  lia.
Qed.

Lemma handle_sized (e : Event) (m : Sample) :
  is_pow2 maxInvocationsX -> offered maxInvocationsX e ->
  sized maxInvocationsX m -> sized maxInvocationsX (handle computeMain e m).
Proof.
  intros HM He Hs.
  destruct e as [draws N | L | | draws | | c |]; cbn [handle offered] in *;
    try (apply frame_sized, Hs); destruct HM as (mx & Hmx & ->).
  - pose proof (offered_total_elements_fit mx N Hmx He).
    destruct Hs as (H1 & H2 & H3 & _).
    destruct m as [st els hbh g]; destruct st; destruct g.
    unfold sized in *. handlers.
    rewrite length_randomizeElementArray, iota_length. auto.
  - destruct m as [st els hbh g]; destruct st; destruct g.
    unfold sized in *. handlers. exact Hs.
  - destruct m as [st els hbh g]; destruct st; destruct g.
    unfold sized in *. handlers. exact Hs.
  - destruct m as [st els hbh g]; destruct st; destruct g.
    unfold sized in *. handlers.
    rewrite length_randomizeElementArray. exact Hs.
  - destruct m as [st els hbh g]; destruct st; destruct g.
    unfold sized in *. handlers. exact Hs.
  - destruct m as [st els hbh g]; destruct st; destruct g.
    unfold sized in *. handlers. exact Hs.
Qed.

Lemma reachable_sized (m : Sample) :
  is_pow2 maxInvocationsX ->
  reachable maxInvocationsX computeMain m -> sized maxInvocationsX m.
Proof.
  intros HM. induction 1 as [draws | e m _ IH He].
  - destruct HM as (mx & Hmx & ->). pose proof (pow2_pos mx Hmx).
    unfold sized, initialSample, initialSettings. fields.
    rewrite !repeat_length, length_randomizeElementArray, iota_length.
    unfold maxElements. repeat split; lia.
  - apply handle_sized; assumption.
Qed.

(** X13.  With a shader that leaves the size of the output buffer alone, on
    every state of the page (device limit a power of two) the element array
    has exactly ['Total Elements'] cells, which is at most the
    [maxElements] cells each of the three element buffers holds; and a frame
    uploads the array unchanged to the front of the input buffer. *)
Theorem element_array_has_total_elements_cells (m : Sample) :
  is_pow2 maxInvocationsX ->
  reachable maxInvocationsX computeMain m ->
  length (elements m) = Z.to_nat (Total_Elements (settings m)) /\
  Total_Elements (settings m) <= maxElements maxInvocationsX /\
  length (elementsInputBuffer (gpu m)) = Z.to_nat (maxElements maxInvocationsX) /\
  length (elementsOutputBuffer (gpu m)) = Z.to_nat (maxElements maxInvocationsX) /\
  length (elementsStagingBuffer (gpu m)) = Z.to_nat (maxElements maxInvocationsX) /\
  firstn (length (elements m)) (elementsInputBuffer (gpu (frame computeMain m)))
    = elements m.
Proof.
  intros HM Hr.
  destruct (reachable_sized m HM Hr) as (H1 & H2 & H3 & H4 & H5).
  repeat (split; [first [assumption | lia]|]).
  assert (E : elementsInputBuffer (gpu (frame computeMain m))
              = writeBuffer (elementsInputBuffer (gpu m)) (elements m)).
  { destruct m as [st els hbh g]. destruct st. destruct g. unfold frame.
    destruct (dispatches _); fields.
    - destruct (computeMain _ _ _ _ _ _) as [out sw].
      destruct (sequence _ _) as [st' hbh'].
      destruct executeStep0; reflexivity.
    - destruct executeStep0; reflexivity. }
  rewrite E. apply firstn_writeBuffer.
Qed.

End Sizes.

(** ** The display grid *)

(** Twice a square of a power of two is no square. *)
Lemma twice_pow2_square_is_no_square (a : Z) :
  0 <= a -> forall s, s * s <> 2 * (2 ^ a * 2 ^ a).
Proof.
  revert a. apply (natlike_ind (fun a => forall s, s * s <> 2 * (2 ^ a * 2 ^ a))).
  - intros s E. change (2 * (2 ^ 0 * 2 ^ 0)) with 2 in E.
    assert (Hs : -2 < s < 2) by nia.
    assert (Hc : s = -1 \/ s = 0 \/ s = 1) by lia.
    destruct Hc as [-> | [-> | ->]]; discriminate E.
  - intros a Ha IH s E.
    unfold Z.succ in E. rewrite pow2_succ in E by lia.
    destruct (Z.Even_or_Odd s) as [[q Hq] | [q Hq]]; subst s.
    + apply (IH q). nia.
    + nia.
Qed.

Lemma sqrt_pow2_square (a : Z) : 0 <= a -> Z.sqrt (2 ^ a * 2 ^ a) = 2 ^ a.
Proof. intros Ha. apply Z.sqrt_square. pose proof (pow2_pos a Ha). lia. Qed.

Lemma gridWidth_pow2 (n : Z) : 1 <= n -> gridWidth (2 ^ n) = 2 ^ (n / 2).
Proof.
  intros Hn. unfold gridWidth.
  pose proof (Z.div_mod n 2 ltac:(lia)) as Hdm.
  pose proof (Z.mod_pos_bound n 2 ltac:(lia)) as Hm.
  set (a := n / 2) in *.
  assert (Ha : 0 <= a) by lia.
  destruct (Z.eq_dec (n mod 2) 0) as [E0 | E1].
  - assert (En : 2 ^ n = 2 ^ a * 2 ^ a)
      by (rewrite <- Z.pow_add_r by lia; f_equal; lia).
    rewrite En, sqrt_pow2_square, Z.eqb_refl by lia.
    replace a with (a - 1 + 1) at 1 by lia.
    rewrite pow2_succ, Z.even_mul by lia. reflexivity.
  - assert (En : 2 ^ n = 2 * (2 ^ a * 2 ^ a)).
    { rewrite <- Z.pow_add_r, <- pow2_succ by lia. f_equal. lia. }
    destruct (Z.eqb_spec (Z.sqrt (2 ^ n) * Z.sqrt (2 ^ n)) (2 ^ n)) as [E | _].
    + exfalso. rewrite En in E at 3.
      exact (twice_pow2_square_is_no_square a Ha _ E).
    + cbn [andb]. rewrite En.
      rewrite (Z.mul_comm 2), Z.div_mul by lia.
      apply sqrt_pow2_square. lia.
Qed.

(** X14.  For an array of [2 ^ n] elements ([n >= 1]) the display grid is
    [2 ^ (n / 2)] cells wide and [2 ^ (n - n / 2)] cells high: width times
    height is the array size, as the settings comment requires, and the grid
    is square or twice as high as wide.  Column [x] and row [y] of the grid
    denote the cell [y * width + x], which is below the array size, and
    different places denote different cells. *)
Theorem grid_covers_the_array (n : Z) :
  1 <= n ->
  let N := 2 ^ n in
  let W := gridWidth N in
  let H := gridHeight N in
  W = 2 ^ (n / 2) /\
  H = 2 ^ (n - n / 2) /\
  W * H = N /\
  (H = W \/ H = 2 * W) /\
  (forall x y, 0 <= x < W -> 0 <= y < H -> 0 <= cellIndex W x y < N) /\
  (forall x y x' y',
     0 <= x < W -> 0 <= x' < W ->
     cellIndex W x y = cellIndex W x' y' -> x = x' /\ y = y').
Proof.
  intros Hn N W H.
  pose proof (Z.div_mod n 2 ltac:(lia)) as Hdm.
  pose proof (Z.mod_pos_bound n 2 ltac:(lia)) as Hm.
  assert (EW : W = 2 ^ (n / 2)) by (apply gridWidth_pow2, Hn).
  assert (Hpos : 0 < 2 ^ (n / 2)) by (apply pow2_pos; lia).
  assert (EN : N = 2 ^ (n / 2) * 2 ^ (n - n / 2)).
  { unfold N. rewrite <- Z.pow_add_r by lia. f_equal. lia. }
  assert (EH : H = 2 ^ (n - n / 2)).
  { unfold H, gridHeight. fold N W. rewrite EW, EN.
    rewrite Z.mul_comm, Z.div_mul by lia. reflexivity. }
  split; [exact EW|]. split; [exact EH|].
  split; [rewrite EW, EH; symmetry; exact EN|].
  split.
  { rewrite EW, EH.
    destruct (Z.eq_dec (n mod 2) 0) as [E0 | E1].
    - left. f_equal. lia.
    - right. rewrite <- pow2_succ by lia. f_equal. lia. }
  rewrite EN, <- EW, <- EH. unfold cellIndex. split.
  - intros x y Hx Hy. nia.
  - intros x y x' y' Hx Hx' E.
    assert (y = y') by nia. subst y'. split; [lia | reflexivity].
Qed.

Lemma grid_covers_the_array_witness :
  gridWidth 8192 = 64 /\ gridHeight 8192 = 128 /\
  gridWidth 16 = 4 /\ gridHeight 16 = 4.
Proof.
  destruct (grid_covers_the_array 13 ltac:(lia)) as (H1 & H2 & _).
  destruct (grid_covers_the_array 4 ltac:(lia)) as (H3 & H4 & _).
  repeat split; assumption.
Defined.

(** ** The image sequence loader *)

Section ImageSequenceProperties.
Import Ascii String ImageSequence.
Local Open Scope string_scope.

Lemma detectLoop_spec (fetchOk : string -> bool) (base channel : string)
    (fuel : nat) :
  forall i,
    let r := detectLoop fetchOk base channel fuel i i in
    (i <= r <= i + fuel)%nat /\
    (forall j, (i <= j < r)%nat -> fetchOk (imagePath base j channel) = true) /\
    ((r < i + fuel)%nat -> fetchOk (imagePath base r channel) = false).
Proof.
  induction fuel as [| fuel IH]; intros i; cbn [detectLoop].
  - split; [lia|]. split; [intros j Hj; lia | intros H; lia].
  - destruct (fetchOk (imagePath base i channel)) eqn:E.
    + replace (i + 1)%nat with (S i) by lia.
      destruct (IH (S i)) as (H1 & H2 & H3).
      split; [lia|]. split.
      * intros j Hj. destruct (Nat.eq_dec j i) as [-> | Hne];
          [exact E | apply H2; lia].
      * intros H. apply H3. lia.
    + split; [lia|]. split; [intros j Hj; lia | intros _; exact E].
Qed.

Lemma detectFrameCount_spec (fetchOk : string -> bool) (base channel : string) :
  let n := detectFrameCount fetchOk base channel in
  (n <= Z.to_nat 10000)%nat /\
  (forall i, (i < n)%nat -> fetchOk (imagePath base i channel) = true) /\
  ((n < Z.to_nat 10000)%nat -> fetchOk (imagePath base n channel) = false).
Proof.
  destruct (detectLoop_spec fetchOk base channel maxFrames 0) as (H1 & H2 & H3).
  fold (detectFrameCount fetchOk base channel) in H1, H2, H3.
  unfold maxFrames in H1, H3.
  split; [lia|]. split; [intros i Hi; apply H2; lia | intros H; apply H3; lia].
Qed.

(** X15.  [detectFrameCount] returns the number of the first frame whose
    HEAD request is not answered with ok, and 10000 when the first 10000
    frames all are: the count is at most 10000, every frame below it was
    answered with ok, the frame at the count was not unless the count is
    10000, and it is the only number with these properties. *)
Theorem detected_count_is_the_first_missing_frame
    (fetchOk : string -> bool) (base channel : string) :
  let n := detectFrameCount fetchOk base channel in
  (n <= Z.to_nat 10000)%nat /\
  (forall i, (i < n)%nat -> fetchOk (imagePath base i channel) = true) /\
  ((n < Z.to_nat 10000)%nat -> fetchOk (imagePath base n channel) = false) /\
  (forall k,
     (k <= Z.to_nat 10000)%nat ->
     (forall i, (i < k)%nat -> fetchOk (imagePath base i channel) = true) ->
     ((k < Z.to_nat 10000)%nat ->
      fetchOk (imagePath base k channel) = false) ->
     n = k).
Proof.
  intros n.
  destruct (detectFrameCount_spec fetchOk base channel) as (H1 & H2 & H3).
  fold n in H1, H2, H3.
  split; [exact H1|]. split; [exact H2|]. split; [exact H3|].
  intros k Hk Hall Hend.
  destruct (Nat.lt_trichotomy n k) as [Hlt | [Heq | Hgt]].
  - rewrite (Hall n Hlt) in H3. discriminate H3. lia.
  - exact Heq.
  - rewrite (H2 k Hgt) in Hend. discriminate Hend. lia.
Qed.

(** *** File names *)

Lemma length_append (a b : string) :
  length (a ++ b) = (length a + length b)%nat.
Proof. induction a as [| x a IH]; cbn; [reflexivity | rewrite IH; reflexivity]. Qed.

Lemma append_inj_r (a x y : string) : a ++ x = a ++ y -> x = y.
Proof.
  induction a as [| c a IH]; cbn; intros E; [exact E|].
  injection E as E. apply IH, E.
Qed.

Lemma append_same_length (x y t t' : string) :
  length x = length y -> x ++ t = y ++ t' -> x = y.
Proof.
  revert y. induction x as [| c x IH]; intros [| d y] Hl E;
    try discriminate Hl; [reflexivity|].
  cbn in Hl, E. injection E as -> E. f_equal. apply IH; [lia | exact E].
Qed.

Lemma append_inj_l (x y t : string) : x ++ t = y ++ t -> x = y.
Proof.
  intros E. apply (append_same_length x y t t); [| exact E].
  apply (f_equal length) in E. rewrite !length_append in E. lia.
Qed.

Lemma digitsValue_zeros (k : nat) (s : string) (n : nat) :
  digitsValue s = Some n -> digitsValue (zeros k ++ s) = Some n.
Proof.
  intros E. induction k as [| k IH]; [exact E|].
  unfold digitsValue in *. cbn [zeros append].
  cbn [DecimalString.NilEmpty.uint_of_string].
  destruct (DecimalString.NilEmpty.uint_of_string (zeros k ++ s)) as [d |];
    [| discriminate IH].
  cbn in IH |- *. exact IH.
Qed.

Lemma digitsValue_frameString (n : nat) :
  digitsValue (padStart 4%nat (toString n)) = Some n.
Proof.
  unfold padStart. apply digitsValue_zeros.
  unfold digitsValue, toString.
  rewrite DecimalString.NilEmpty.usu. cbn [option_map].
  rewrite DecimalNat.Unsigned.of_to. reflexivity.
Qed.

Lemma frameString_four (n : nat) :
  (n < Z.to_nat 10000)%nat -> length (padStart 4%nat (toString n)) = 4%nat.
Proof.
  intros Hn.
  assert (Hall : forallb
                   (fun i => Nat.eqb (length (padStart 4%nat (toString i))) 4)
                   (seq 0 (Z.to_nat 10000)) = true) by (vm_compute; reflexivity).
  rewrite forallb_forall in Hall.
  apply Nat.eqb_eq, Hall, in_seq. lia.
Qed.

(** X16.  The file of frame [i] of a channel is
    [<basePath>0000.<frame>.<channel>.jpg], where the frame string is the
    frame number in decimal digits, padded with zeros: read as a number it
    gives [i] back, and below 10000 (every frame [detectFrameCount] asks for)
    it has exactly four characters.  So different frames of a channel are
    different files, and frame 0 is the file [loadFirstFrame] asks for. *)
Theorem frame_files_are_numbered (base channel : string) (i : nat) :
  digitsValue (padStart 4%nat (toString i)) = Some i /\
  ((i < Z.to_nat 10000)%nat ->
   length (padStart 4%nat (toString i)) = 4%nat) /\
  (forall j, imagePath base i channel = imagePath base j channel -> i = j) /\
  imagePath base 0 channel = firstFramePath base channel.
Proof.
  split; [apply digitsValue_frameString|].
  split; [apply frameString_four|].
  split; [| reflexivity].
  intros j E. unfold imagePath in E.
  apply append_inj_r in E. apply (append_inj_r "0000.") in E.
  apply append_inj_l in E.
  pose proof (digitsValue_frameString i) as Hi.
  pose proof (digitsValue_frameString j) as Hj.
  rewrite E, Hj in Hi. injection Hi as Hi. symmetry. exact Hi.
Qed.

(** *** Frames *)

Lemma forallb_false {A : Type} (f : A -> bool) (l : list A) :
  forallb f l = false -> exists x, In x l /\ f x = false.
Proof.
  induction l as [| a l IH]; cbn; [discriminate|].
  destruct (f a) eqn:E; cbn; intros H.
  - destruct (IH H) as (x & Hx & Hf). exists x. split; [right; exact Hx | exact Hf].
  - exists a. split; [left; reflexivity | exact E].
Qed.

Lemma loadFrame_cases (loads : string -> bool) (f : Z) (c : Controller) :
  (fst (loadFrame loads f c) = c /\ snd (loadFrame loads f c) = OutOfRange /\
   (f < 0 \/ totalFrames c <= f)%Z) \/
  (fst (loadFrame loads f c) = c /\ snd (loadFrame loads f c) = Failed /\
   (0 <= f < totalFrames c)%Z /\
   exists channel,
     In channel (channels c) /\
     (loads (imagePath (basePath c) (Z.to_nat f) channel) = false \/
      ~ In channel (map fst (textures c)))) \/
  (fst (loadFrame loads f c) = set_currentFrame f c /\
   snd (loadFrame loads f c) = Loaded /\
   (0 <= f < totalFrames c)%Z /\
   forall channel,
     In channel (channels c) ->
     loads (imagePath (basePath c) (Z.to_nat f) channel) = true /\
     In channel (map fst (textures c))).
Proof.
  unfold loadFrame. rewrite Z.geb_leb.
  destruct (Z.ltb_spec f 0) as [Hneg | Hnn]; cbn [orb].
  { left. repeat split. left. exact Hneg. }
  destruct (Z.leb_spec (totalFrames c) f) as [Hge | Hlt].
  { left. repeat split. right. exact Hge. }
  right.
  destruct (forallb _ (channels c)) eqn:E.
  - right. split; [reflexivity|]. split; [reflexivity|]. split; [lia|].
    intros channel Hin. rewrite forallb_forall in E.
    specialize (E channel Hin). unfold loadImageToTexture in E.
    apply andb_true_iff in E. destruct E as (E1 & E2).
    split; [exact E1|].
    apply existsb_exists in E2. destruct E2 as (t & Ht & Et).
    apply String.eqb_eq in Et. subst channel. apply in_map, Ht.
  - left. split; [reflexivity|]. split; [reflexivity|]. split; [lia|].
    apply forallb_false in E. destruct E as (channel & Hin & E).
    exists channel. split; [exact Hin|].
    unfold loadImageToTexture in E. apply andb_false_iff in E.
    destruct E as [E | E]; [left; exact E | right].
    intros Hm. apply in_map_iff in Hm. destruct Hm as (t & Et & Ht).
    assert (Hex : existsb (fun t => String.eqb (fst t) channel) (textures c)
                  = true).
    { apply existsb_exists. exists t. split; [exact Ht|].
      apply String.eqb_eq, Et. }
    rewrite Hex in E. discriminate E.
Qed.

(** X17.  Calls of [loadFrame] (or [seekToFrame]) change nothing of the
    controller but the current frame, and after any sequence of calls the
    current frame is the one before the calls, or a requested frame that
    lies inside [0, totalFrames) and for which the image of every channel
    loaded into a texture the channel has: a frame out of range or a failed
    load never becomes the current frame. *)
Theorem current_frame_was_loaded
    (requests : list ((string -> bool) * Z)) (c : Controller) :
  let c' := loadFrames requests c in
  basePath c' = basePath c /\
  totalFrames c' = totalFrames c /\
  channels c' = channels c /\
  textures c' = textures c /\
  (currentFrame c' = currentFrame c \/
   exists loads,
     In (loads, currentFrame c') requests /\
     (0 <= currentFrame c' < totalFrames c)%Z /\
     forall channel,
       In channel (channels c) ->
       loads (imagePath (basePath c) (Z.to_nat (currentFrame c')) channel)
         = true /\
       In channel (map fst (textures c))).
Proof.
  revert c. induction requests as [| [loads f] rest IH]; intros c; cbn zeta.
  - cbn [loadFrames]. repeat split. left. reflexivity.
  - cbn [loadFrames].
    specialize (IH (fst (loadFrame loads f c))). cbn zeta in IH.
    destruct IH as (B & T & C & X & Hcur).
    destruct (loadFrame_cases loads f c)
      as [(E & _) | [(E & _) | (E & _ & Hf & Hall)]];
      rewrite E in B, T, C, X, Hcur |- *.
    + repeat (split; [assumption|]).
      destruct Hcur as [Hc | (l & Hin & Hrest)];
        [left; exact Hc | right; exists l; split; [right; exact Hin | exact Hrest]].
    + repeat (split; [assumption|]).
      destruct Hcur as [Hc | (l & Hin & Hrest)];
        [left; exact Hc | right; exists l; split; [right; exact Hin | exact Hrest]].
    + destruct c as [b cur tot chs txs]. cbn in B, T, C, X, Hcur, Hf, Hall |- *.
      repeat (split; [assumption|]).
      destruct Hcur as [Hc | (l & Hin & Hrest)].
      * right. exists loads. rewrite Hc.
        split; [left; reflexivity|]. split; [exact Hf | exact Hall].
      * right. exists l. split; [right; exact Hin | exact Hrest].
Qed.

(** X18.  When [loadGBufferImages] succeeds, the controller it returns is
    ready: its channels are the enabled keys of the configuration, in
    order, and there is at least one; every channel has a texture of the
    size of the first channel's first frame; the frame count is not 0, is the
    one passed when one other than 0 is passed, and is otherwise the detected
    count of the first channel, between 1 and 10000; the current frame is 0,
    and with a positive frame count the image of frame 0 loaded for every
    channel.  On that controller a call of [loadFrame] fails only if an
    image of the frame fails to load. *)
Theorem loaded_sequence_is_ready
    (fetchOk : string -> bool) (firstFrame : string -> option (Z * Z))
    (loads : string -> bool) (config : list (string * bool))
    (base : string) (requested : option Z) (c : Controller) :
  loadGBufferImages fetchOk firstFrame loads config base requested = Ok c ->
  channels c = map fst (filter snd config) /\
  (exists firstChannel rest size,
     channels c = firstChannel :: rest /\
     firstFrame (firstFramePath base firstChannel) = Some size /\
     textures c = map (fun channel => (channel, size)) (channels c) /\
     (forall n, requested = Some n -> n <> 0%Z -> totalFrames c = n) /\
     (requested = None \/ requested = Some 0%Z ->
      totalFrames c = Z.of_nat (detectFrameCount fetchOk base firstChannel) /\
      (1 <= totalFrames c <= 10000)%Z)) /\
  basePath c = base /\
  currentFrame c = 0%Z /\
  totalFrames c <> 0%Z /\
  ((0 < totalFrames c)%Z ->
   forall channel,
     In channel (channels c) ->
     loads (imagePath base 0 channel) = true) /\
  (forall loads' f,
     snd (loadFrame loads' f c) = Failed ->
     exists channel,
       In channel (channels c) /\
       loads' (imagePath base (Z.to_nat f) channel) = false).
Proof.
  unfold loadGBufferImages.
  destruct (map fst (filter snd config)) as [| firstChannel rest] eqn:Echs;
    [discriminate|].
  set (detected := Z.of_nat (detectFrameCount fetchOk base firstChannel)).
  set (frameCount := match requested with
                     | Some n => if (n =? 0)%Z then detected else n
                     | None => detected
                     end).
  destruct (Z.eqb_spec frameCount 0) as [| Hnz]; [discriminate|].
  destruct (firstFrame (firstFramePath base firstChannel)) as [size |] eqn:Ef;
    [| discriminate].
  set (chs := firstChannel :: rest).
  set (ctl := mkController base 0 frameCount chs
                (map (fun channel => (channel, size)) chs)).
  intros E.
  assert (Hc : (c = ctl \/ c = set_currentFrame 0 ctl) /\
               ((0 < frameCount)%Z ->
                forall channel, In channel chs ->
                  loads (imagePath base 0 channel) = true)).
  { destruct (loadFrame_cases loads 0 ctl)
      as [(E1 & E2 & Hr) | [(E1 & E2 & _) | (E1 & E2 & _ & Hall)]];
      destruct (loadFrame loads 0 ctl) as [c1 o]; cbn [fst snd] in E1, E2;
      subst c1 o; try discriminate E; injection E as <-.
    - split; [left; reflexivity|]. intros Hpos. cbn in Hr. lia.
    - split; [right; reflexivity|]. intros _ channel Hin.
      apply (Hall channel Hin). }
  destruct Hc as (Hc & Hloaded).
  assert (Hfields : basePath c = base /\ currentFrame c = 0%Z /\
                    totalFrames c = frameCount /\ channels c = chs /\
                    textures c = map (fun channel => (channel, size)) chs)
    by (destruct Hc as [-> | ->]; repeat split).
  destruct Hfields as (Hb & Hcur & Htot & Hchs & Htx).
  split; [exact Hchs|]. split.
  { exists firstChannel, rest, size.
    split; [exact Hchs|]. split; [exact Ef|].
    split; [rewrite Htx, Hchs; reflexivity|]. split.
    - intros n -> Hn. rewrite Htot. unfold frameCount.
      destruct (Z.eqb_spec n 0); [contradiction | reflexivity].
    - intros Hreq.
      assert (Ed : frameCount = detected)
        by (unfold frameCount; destruct Hreq as [-> | ->]; reflexivity).
      rewrite Htot, Ed. split; [reflexivity|].
      destruct (detectFrameCount_spec fetchOk base firstChannel) as (Hle & _).
      rewrite Ed in Hnz. unfold detected in *. lia. }
  split; [exact Hb|]. split; [exact Hcur|].
  split; [rewrite Htot; exact Hnz|]. split.
  { rewrite Htot, Hchs. exact Hloaded. }
  intros loads' f Hfail.
  destruct (loadFrame_cases loads' f c)
    as [(_ & E2 & _) | [(_ & _ & _ & channel & Hin & Hwhy) | (_ & E2 & _)]];
    try (rewrite E2 in Hfail; discriminate Hfail).
  exists channel. split; [exact Hin|].
  rewrite Hb in Hwhy. destruct Hwhy as [Hl | Hno]; [exact Hl|].
  exfalso. apply Hno. rewrite Htx, map_map. cbn [fst]. rewrite map_id.
  rewrite <- Hchs. exact Hin.
Qed.

Lemma loaded_sequence_is_ready_witness :
  exists c,
    loadGBufferImages
      (fun path =>
         String.eqb path "g/0000.0000.basecolor.jpg"
         || String.eqb path "g/0000.0001.basecolor.jpg")
      (fun _ => Some (640, 480)%Z) (fun _ => true)
      [("basecolor", true); ("depth", false); ("normal", true)]
      "g/" None = Ok c /\
    channels c = ["basecolor"; "normal"] /\
    totalFrames c = 2%Z.
Proof.
  eexists. split; [vm_compute; reflexivity|].
  destruct (loaded_sequence_is_ready
              (fun path =>
                 String.eqb path "g/0000.0000.basecolor.jpg"
                 || String.eqb path "g/0000.0001.basecolor.jpg")
              (fun _ => Some (640, 480)%Z) (fun _ => true)
              [("basecolor", true); ("depth", false); ("normal", true)]
              "g/" None _ eq_refl) as (H1 & _).
  split; [exact H1 | reflexivity].
Defined.

End ImageSequenceProperties.

(** ** The properties above on a concrete page *)

Lemma demo_limit_pow2 : is_pow2 256.
Proof. exists 8. split; [lia | reflexivity]. Qed.

Lemma started_reachable : reachable 256 Demo.passThrough Demo.started.
Proof.
  apply reachable_handles; [apply reachable_initial|].
  apply Forall_cons;
    [vm_compute; repeat (first [left; reflexivity | right])|].
  apply Forall_cons;
    [vm_compute; repeat (first [left; reflexivity | right])|].
  repeat (apply Forall_cons; [exact I|]). apply Forall_nil.
Qed.

Lemma passThrough_keeps_size : keeps_size Demo.passThrough.
Proof. intros w g a b input output counter E. exact E. Qed.

Lemma page_spans_are_powers_of_two_witness :
  is_pow2 (Total_Elements (settings Demo.started)) /\
  4 <= Total_Elements (settings Demo.started) /\
  Next_Swap_Span (settings Demo.started) = 4.
Proof.
  destruct (page_spans_are_powers_of_two 256 Demo.passThrough Demo.started
              demo_limit_pow2 started_reachable) as (H1 & H2 & _).
  split; [exact H1|]. split; [exact H2 | reflexivity].
Defined.

Lemma workgroups_cover_the_array_witness :
  Workgroup_Size (settings Demo.started)
  * Workgroups_Per_Step (settings Demo.started) * 2
  = Total_Elements (settings Demo.started) /\
  computePipeline (gpu Demo.started) = Workgroup_Size (settings Demo.started) /\
  Workgroups_Per_Step (settings Demo.started) = 4.
Proof.
  destruct (workgroups_cover_the_array 256 Demo.passThrough Demo.started
              demo_limit_pow2 started_reachable) as (H1 & _ & H3 & _).
  split; [exact H1|]. split; [exact H3 | reflexivity].
Defined.

Lemma step_index_within_total_witness :
  0 <= Step_Index (settings Demo.started)
    <= Total_Steps (settings Demo.started) /\
  Total_Steps (settings Demo.started) = 10.
Proof.
  destruct (step_index_within_total 256 Demo.passThrough Demo.started
              demo_limit_pow2 started_reachable) as (H1 & H2 & _).
  split; [exact H1 | exact (eq_trans H2 eq_refl)].
Defined.

Lemma execution_information_is_consistent_witness :
  Next_Step (settings Demo.started) = FLIP_LOCAL /\
  Prev_Swap_Span (settings Demo.started) = 2.
Proof.
  destruct (execution_information_is_consistent 256 Demo.passThrough
              Demo.started demo_limit_pow2 started_reachable)
    as (_ & _ & _ & _ & _ & H6).
  assert (E : Next_Step (settings Demo.started) = FLIP_LOCAL) by reflexivity.
  split; [exact E|].
  apply H6; [left; exact E | discriminate].
Defined.

Lemma global_steps_exceed_the_size_limit_witness :
  Next_Step
    (settings (advances Demo.passThrough 7
                 (startSession Demo.firstDraw (2 ^ 4) 2 Demo.page)))
  = FLIP_GLOBAL \/
  Next_Step
    (settings (advances Demo.passThrough 7
                 (startSession Demo.firstDraw (2 ^ 4) 2 Demo.page)))
  = DISPERSE_GLOBAL.
Proof.
  destruct (global_steps_exceed_the_size_limit Demo.passThrough
              Demo.firstDraw 4 2 Demo.page 7
              ltac:(lia) ltac:(lia) ltac:(vm_compute; lia))
    as ((_ & H) & _).
  apply H. reflexivity.
Defined.

Lemma trace_depends_on_sizes_only_witness :
  position (advances Demo.passThrough 4
              (startSession Demo.firstDraw (2 ^ 3) 2 Demo.page))
  = position (advances (fun _ _ _ _ _ old => old) 4
                (startSession (fun i => i) (2 ^ 3) 2 Demo.started)).
Proof.
  exact (trace_depends_on_sizes_only Demo.passThrough
           (fun _ _ _ _ _ old => old) Demo.firstDraw (fun i => i)
           Demo.page Demo.started 3 2 4 ltac:(lia) ltac:(lia)).
Defined.

Lemma hover_shows_a_cell_of_the_array_witness :
  Hovered_Cell (settings (hoveredCellOnChange 5 Demo.started)) = 5 /\
  0 <= Swapped_Cell (settings (hoveredCellOnChange 5 Demo.started))
    < Total_Elements (settings Demo.started) /\
  Swapped_Cell (settings (hoveredCellOnChange 5 Demo.started)) = 6.
Proof.
  destruct (hover_shows_a_cell_of_the_array 256 Demo.passThrough
              Demo.started 5 demo_limit_pow2 started_reachable
              ltac:(split; [lia | reflexivity]))
    as (H1 & H2 & _).
  split; [exact H1|]. split; [exact H2 | reflexivity].
Defined.

Lemma element_array_has_total_elements_cells_witness :
  length (elements Demo.started)
  = Z.to_nat (Total_Elements (settings Demo.started)) /\
  Total_Elements (settings Demo.started) = 16.
Proof.
  destruct (element_array_has_total_elements_cells 256 Demo.passThrough
              passThrough_keeps_size Demo.started
              demo_limit_pow2 started_reachable) as (H1 & _).
  split; [exact H1 | reflexivity].
Defined.
